(** * Task registration and resolution (lm_eval/tasks/__init__.py)

    A shallow embedding of the registry and resolution code of
    [lm_eval/tasks/__init__.py]: configuration records are finite maps from
    field names to values, the module-level registries, the cache, the
    caller-owned dictionaries and the log are fields of one [world] that every
    stateful function threads, and a raised exception is a [Raise] result that
    keeps the world reached so far. *)

From stdpp Require Import base strings list gmap fin_maps.

Local Open Scope string_scope.
#[local] Set Warnings "-register-all".

(** ** Values of configuration fields *)

(** What a field of a parsed definition can hold: [None], a string, a
    sequence, a nested mapping (kept as the list of its items), or any other
    object (numbers, booleans, callables), told apart by a tag. *)
Inductive value : Type :=
  | VNone
  | VStr (s : string)
  | VList (items : list value)
  | VDict (fields : list (string * value))
  | VOther (tag : nat).

(** A configuration record: a Python [dict] with string keys. *)
Abbreviation Config := (gmap string value).

(** Python's [==] on field values. Nested mappings are compared item by item;
    the only comparison in the module has a string as its right operand. *)
Fixpoint py_eq (a b : value) : bool :=
  match a, b with
  | VNone, VNone => true
  | VStr s, VStr t => bool_decide (s = t)
  | VList xs, VList ys =>
      (fix go (xs ys : list value) : bool :=
         match xs, ys with
         | [], [] => true
         | x :: xs', y :: ys' => py_eq x y && go xs' ys'
         | _, _ => false
         end) xs ys
  | VDict xs, VDict ys =>
      (fix go (xs ys : list (string * value)) : bool :=
         match xs, ys with
         | [], [] => true
         | (k, x) :: xs', (k', y) :: ys' =>
             bool_decide (k = k') && py_eq x y && go xs' ys'
         | _, _ => false
         end) xs ys
  | VOther n, VOther m => bool_decide (n = m)
  | _, _ => false
  end.

(** The mapping a nested [VDict] denotes; a repeated key keeps its last
    value, as in a Python dict built item by item. *)
Definition dict_of_fields (fields : list (string * value)) : Config :=
  list_to_map (reverse fields).

(** The keys of a nested mapping in the order a loop over it meets them. *)
Fixpoint dict_keys (fields : list (string * value)) : list string :=
  match fields with
  | [] => []
  | (k, _) :: fields' =>
      k :: filter (λ k', k' ≠ k) (dict_keys fields')
  end.

(** ** Exceptions and results *)

Inductive exn : Type :=
  | KeyError (key : string)
  | TypeError
  | IndexError
  | ValueError (msg : string)
  | AssertionError
  | ImportError
  | ModuleNotFoundError
  | RecursionError
  | OtherException (tag : nat).

Inductive result (A : Type) : Type :=
  | Ok (a : A)
  | Raise (e : exn).
Arguments Ok {A} a.
Arguments Raise {A} e.

Global Instance result_ret : MRet result := λ A a, Ok a.
Global Instance result_bind : MBind result := λ A B f r,
  match r with
  | Ok a => f a
  | Raise e => Raise e
  end.

(** [d[k]]: a missing key raises [KeyError]. *)
Definition dict_get (d : Config) (k : string) : result value :=
  match d !! k with
  | Some v => Ok v
  | None => Raise (KeyError k)
  end.

(** ** Strings *)

(** [s.startswith(prefix)]. *)
Fixpoint startswith (s prefix : string) {struct prefix} : bool :=
  match prefix with
  | EmptyString => true
  | String a prefix' =>
      match s with
      | EmptyString => false
      | String b s' => bool_decide (a = b) && startswith s' prefix'
      end
  end.

(** [sub in s]. *)
Fixpoint str_contains (sub s : string) : bool :=
  startswith s sub ||
  match s with
  | EmptyString => false
  | String _ s' => str_contains sub s'
  end.

(** [s.endswith(suffix)]. *)
Definition endswith (s suffix : string) : bool :=
  bool_decide (String.length suffix ≤ String.length s)%nat &&
  bool_decide
    (String.substring (String.length s - String.length suffix)
       (String.length suffix) s = suffix).

(** [s.split(sep)] for a separator of one character. *)
Fixpoint py_split (sep : Ascii.ascii) (s : string) : list string :=
  match s with
  | EmptyString => [EmptyString]
  | String a s' =>
      if bool_decide (a = sep) then EmptyString :: py_split sep s'
      else
        match py_split sep s' with
        | piece :: pieces => String a piece :: pieces
        | [] => [String a EmptyString]
        end
  end.

(** The character ["/"]. *)
Definition slash : Ascii.ascii := Ascii.ascii_of_nat 47.

(** The NUL character, and [chr(0) in s]. *)
Definition nul : Ascii.ascii := Ascii.zero.

Fixpoint has_nul (s : string) : bool :=
  match s with
  | EmptyString => false
  | String a s' => bool_decide (a = nul) || has_nul s'
  end.

(** [l[-1]] of a list of strings. *)
Definition last_item (l : list string) : result string :=
  match last l with
  | Some x => Ok x
  | None => Raise IndexError
  end.

(** An operand of [+] with a string, or an item of [str.join], must be a
    string. *)
Definition expect_str (v : value) : result string :=
  match v with
  | VStr s => Ok s
  | _ => Raise TypeError
  end.

(** ** Tasks, factories and the world *)

(** Modelled from the spec: [TaskConfig] of [lm_eval.api.task]. It is a plain
    record of the named fields of a definition, built from parsed input
    without side effects; unknown fields are passed through. [to_dict] with
    [keep_callable=True] gives the fields back verbatim. *)
Record TaskConfig : Type := MkTaskConfig { to_dict : Config }.

(** A task class held by the registry: the class object made by [type(...)]
    in [register_configurable_task], or any other subclass of [Task]. The
    identity of the class object is [class_id]. *)
Record TaskFactory : Type := MkFactory {
  class_id : nat;
  class_name : string;
  CONFIG : TaskConfig;
}.

(** What a slot of [TASK_REGISTRY] can hold: a class, a pair whose second
    component is a class or [None], or [None]. *)
Inductive registry_value : Type :=
  | Factory (c : TaskFactory)
  | Paired (owner : value) (c : option TaskFactory)
  | NoFactory.

(** A live task object: its identity, the name of its type, the attribute
    [EVAL_HARNESS_NAME] when it has one, the [CONFIG] of its class when the
    class has one and the [config] argument it was built with. *)
Record Task : Type := MkTask {
  task_id : nat;
  type_name : string;
  EVAL_HARNESS_NAME : option string;
  class_CONFIG : option TaskConfig;
  init_config : Config;
}.

(** A value of the mapping returned by [get_task_dict]: a task, [None], or a
    pair [(group_name, value)]. *)
Inductive entry : Type :=
  | EInst (t : Task)
  | ENone
  | EPair (group_name : string) (e : entry).

Abbreviation task_dict := (gmap string entry).

(** [TASK_REGISTRY] keeps its insertion order: [get_task_name_from_object]
    iterates over it. *)
Abbreviation task_registry := (list (string * registry_value)).

Fixpoint registry_lookup (r : task_registry) (name : string)
    : option registry_value :=
  match r with
  | [] => None
  | (k, v) :: r' => if bool_decide (k = name) then Some v
                    else registry_lookup r' name
  end.

(** [r[name] = v]: an existing key keeps its place, a new key goes last. *)
Fixpoint registry_insert (name : string) (v : registry_value)
    (r : task_registry) : task_registry :=
  match r with
  | [] => [(name, v)]
  | (k, v') :: r' => if bool_decide (k = name) then (k, v) :: r'
                     else (k, v') :: registry_insert name v r'
  end.

(** Modelled from the spec: the cache of [lm_eval.caching.cache], a store
    from key to value read by [load_from_cache] and written by
    [save_to_cache]. The keys the module uses are [registry-TASK_REGISTRY],
    [registry-GROUP_REGISTRY], [registry-ALL_TASKS] and [raw-<task name>];
    each slot holds what the module saves under it, and an absent key reads
    as an empty value. *)
Record cache_store : Type := MkCache {
  registry_TASK_REGISTRY : option task_registry;
  registry_GROUP_REGISTRY : option (gmap string (list string));
  registry_ALL_TASKS : option (gset string);
  raw : gmap string task_dict;
}.

(** A record of the logger; the text of the messages is not modelled. *)
Inductive log_record : Type :=
  | DebugNotAdded (yaml_path : string) (e : exn)
  | WarningUnexpected (yaml_path : string) (e : exn)
  | WarningMissingDependencies
  | InfoAvailableTasks
  | InfoTaskNames.

Record world : Type := MkWorld {
  TASK_REGISTRY : task_registry;
  GROUP_REGISTRY : gmap string (list string);
  ALL_TASKS : gset string;
  cache : cache_store;
  (** the dictionaries the caller owns, by address *)
  heap : gmap nat Config;
  (** the identity the next created object gets *)
  next_id : nat;
  log : list log_record;
}.

(** ** The monad of stateful, fallible code

    A computation takes the world and gives the world it leaves together with
    a value or the exception it raised. *)
Definition M (A : Type) : Type := world → world * result A.

Global Instance M_ret : MRet M := λ A a w, (w, Ok a).
Global Instance M_bind : MBind M := λ A B f m w,
  match m w with
  | (w', Ok a) => f a w'
  | (w', Raise e) => (w', Raise e)
  end.

Definition raise {A} (e : exn) : M A := λ w, (w, Raise e).
Definition lift {A} (r : result A) : M A := λ w, (w, r).
Definition get_world : M world := λ w, (w, Ok w).
Definition modify (f : world → world) : M unit := λ w, (f w, Ok tt).

(** [for x in l: body x]. *)
Fixpoint for_each {A} (body : A → M unit) (l : list A) : M unit :=
  match l with
  | [] => mret tt
  | x :: l' => body x ≫= λ _, for_each body l'
  end.

Definition set_TASK_REGISTRY (r : task_registry) (w : world) : world :=
  MkWorld r (GROUP_REGISTRY w) (ALL_TASKS w) (cache w) (heap w) (next_id w)
    (log w).
Definition set_GROUP_REGISTRY (g : gmap string (list string)) (w : world)
    : world :=
  MkWorld (TASK_REGISTRY w) g (ALL_TASKS w) (cache w) (heap w) (next_id w)
    (log w).
Definition set_ALL_TASKS (s : gset string) (w : world) : world :=
  MkWorld (TASK_REGISTRY w) (GROUP_REGISTRY w) s (cache w) (heap w)
    (next_id w) (log w).
Definition set_cache (c : cache_store) (w : world) : world :=
  MkWorld (TASK_REGISTRY w) (GROUP_REGISTRY w) (ALL_TASKS w) c (heap w)
    (next_id w) (log w).
Definition set_heap (h : gmap nat Config) (w : world) : world :=
  MkWorld (TASK_REGISTRY w) (GROUP_REGISTRY w) (ALL_TASKS w) (cache w) h
    (next_id w) (log w).
Definition set_next_id (n : nat) (w : world) : world :=
  MkWorld (TASK_REGISTRY w) (GROUP_REGISTRY w) (ALL_TASKS w) (cache w)
    (heap w) n (log w).
Definition add_log (r : log_record) (w : world) : world :=
  MkWorld (TASK_REGISTRY w) (GROUP_REGISTRY w) (ALL_TASKS w) (cache w)
    (heap w) (next_id w) (log w ++ [r]).

(** A new object: its identity is the next free one. *)
Definition fresh_id : M nat := λ w, (set_next_id (S (next_id w)) w, Ok (next_id w)).

Definition eval_logger (r : log_record) : M unit := modify (add_log r).

(** ** The registry and the cache *)

(** Modelled from the spec: [register_task] of [lm_eval.api.registry]. It
    inserts or overwrites [name → factory] and adds [name] to the namespace
    set; overwriting is no error (the last write wins). *)
Definition register_task (name : string) (factory : TaskFactory) : M unit :=
  modify (λ w,
    set_ALL_TASKS ({[name]} ∪ ALL_TASKS w)
      (set_TASK_REGISTRY
         (registry_insert name (Factory factory) (TASK_REGISTRY w)) w)).

(** The task name a factory's configuration carries. *)
Definition factory_task (factory : TaskFactory) : option string :=
  match to_dict (CONFIG factory) !! "task" with
  | Some (VStr t) => Some t
  | _ => None
  end.

(** The error raised when a task and its group have the same name. *)
Definition GroupTaskNameCollisionError : exn :=
  ValueError "task and group name cannot be the same".

(** Modelled from the spec: [register_group] of [lm_eval.api.registry]. A new
    group gets a membership list holding the task name and joins the
    namespace set; an existing group gets the task name appended. It fails
    with the collision error when [name] is the task name being grouped. A
    factory that names no task has no task name to record. *)
Definition register_group (name : string) (factory : TaskFactory) : M unit :=
  match factory_task factory with
  | None => raise (KeyError (class_name factory))
  | Some member =>
      if bool_decide (name = member) then raise GroupTaskNameCollisionError
      else modify (λ w,
        match GROUP_REGISTRY w !! name with
        | Some members =>
            set_GROUP_REGISTRY
              (<[name := (members ++ [member])%list]> (GROUP_REGISTRY w)) w
        | None =>
            set_ALL_TASKS ({[name]} ∪ ALL_TASKS w)
              (set_GROUP_REGISTRY (<[name := [member]]> (GROUP_REGISTRY w)) w)
        end)
  end.

(** Modelled from the spec: [load_from_cache] and [save_to_cache] of
    [lm_eval.caching.cache]. A load gives back what was saved under the key,
    and an empty value when nothing was. *)
Definition load_from_cache (file_name : string) : M task_dict :=
  λ w, (w, Ok (default ∅ (raw (cache w) !! file_name))).

Definition save_to_cache (file_name : string) (obj : task_dict) : M unit :=
  modify (λ w,
    set_cache
      (MkCache (registry_TASK_REGISTRY (cache w))
         (registry_GROUP_REGISTRY (cache w)) (registry_ALL_TASKS (cache w))
         (<[file_name := obj]> (raw (cache w)))) w).

Definition save_registries_to_cache : M unit :=
  modify (λ w,
    set_cache
      (MkCache (Some (TASK_REGISTRY w)) (Some (GROUP_REGISTRY w))
         (Some (ALL_TASKS w)) (raw (cache w))) w).

(** Truth values of the three cached registries: an empty or absent one is
    false. *)
Definition cached_task_registry (w : world) : task_registry :=
  default [] (registry_TASK_REGISTRY (cache w)).
Definition cached_group_registry (w : world) : gmap string (list string) :=
  default ∅ (registry_GROUP_REGISTRY (cache w)).
Definition cached_all_tasks (w : world) : gset string :=
  default ∅ (registry_ALL_TASKS (cache w)).

Definition caches_exist (w : world) : bool :=
  bool_decide (length (cached_task_registry w) ≠ 0) &&
  bool_decide (dom (cached_group_registry w) ≠@{gset string} ∅) &&
  bool_decide (cached_all_tasks w ≠ ∅).

(** ** The module *)

Section tasks.

(** What the module takes from its collaborators. *)

(** The text Python puts for a value that is not a string when it formats
    it into a string. *)
Variable py_repr : value → string.
(** [prompts.load_prompt_list(use_prompt, dataset_name, subset_name,
    yaml_path)]: the prompt variations of a selector. *)
Variable load_prompt_list :
  value → value → option value → string → result (list string).
(** [utils.load_yaml_config(yaml_path, yaml_config)]: the parsed definition
    of a file, or of a record given with it. *)
Variable load_yaml_config : string → option Config → result Config.
(** [utils.pattern_match(patterns, source_list)]. *)
Variable pattern_match : list string → gset string → list string.
(** [os.walk], [os.path.join] and [os.path.dirname]. *)
Variable os_walk : string → list (string * list string * list string).
Variable path_join : string → string → string.
Variable dirname : string → string.

#[local] Set Default Proof Using "Type".

(** [str(v)], as [format] and f-strings use it. *)
Definition py_str (v : value) : string :=
  match v with
  | VStr s => s
  | _ => py_repr v
  end.

(** *** Config resolver *)

Definition get_task_name_from_config (task_config : Config)
    : result string :=
  if bool_decide (is_Some (task_config !! "dataset_name")) then
    dataset_path ← dict_get task_config "dataset_path";
    dataset_name ← dict_get task_config "dataset_name";
    Ok (py_str dataset_path ++ "_" ++ py_str dataset_name)
  else
    dataset_path ← dict_get task_config "dataset_path";
    Ok (py_str dataset_path).

(** The second item joined into the name of a variant:
    [prompt_variation.split("/")[-1]] when [".yaml"] occurs in the
    variation, the variation itself otherwise. *)
Definition variation_name (prompt_variation : string) : result string :=
  if str_contains ".yaml" prompt_variation
  then last_item (py_split slash prompt_variation)
  else Ok prompt_variation.

(** The first item joined into the name of a variant: [config["task"]] when
    the config has the field, the derived name otherwise. *)
Definition base_task_name (config : Config) : result string :=
  match config !! "task" with
  | Some task => expect_str task
  | None => get_task_name_from_config config
  end.

(** The config appended for one variation. *)
Definition variant_config (config : Config) (prompt_variation : string)
    : result Config :=
  base ← base_task_name config;
  short ← variation_name prompt_variation;
  Ok (<["output_type" := VStr "generate_until"]>
        (<["task" := VStr (base ++ "_" ++ short)]>
           (<["use_prompt" := VStr prompt_variation]> config))).

Fixpoint variant_configs (config : Config) (prompt_list : list string)
    : result (list Config) :=
  match prompt_list with
  | [] => Ok []
  | prompt_variation :: rest =>
      c ← variant_config config prompt_variation;
      cs ← variant_configs config rest;
      Ok (c :: cs)
  end.

Definition check_prompt_config (config : Config) (yaml_path : string)
    : result (list Config) :=
  match config !! "use_prompt" with
  | Some use_prompt =>
      dataset_path ← dict_get config "dataset_path";
      prompt_list ← load_prompt_list use_prompt dataset_path
                      (config !! "dataset_name") yaml_path;
      variant_configs config prompt_list
  | None => Ok [config]
  end.

(** *** Registration *)

(** The names a [group] field holds when it is not one string: the items of
    a sequence or the keys of a mapping. Anything else cannot be looped
    over. *)
Definition group_names (group : value) : result (list value) :=
  match group with
  | VStr g => Ok [VStr g]
  | VList items => Ok items
  | VDict fields => Ok (VStr <$> dict_keys fields)
  | _ => Raise TypeError
  end.

(** The block under [if "group" in config]. [register_group] takes a name:
    an item of the group field that is not a string is refused. *)
Definition register_groups (config : Config) (task : value)
    (SubClass : TaskFactory) : M unit :=
  match config !! "group" with
  | Some group =>
      if py_eq group task then raise GroupTaskNameCollisionError
      else
        group_name ← lift (group_names group);
        for_each
          (λ group, g ← lift (expect_str group); register_group g SubClass)
          group_name
  | None => mret tt
  end.

(** [type(name, (ConfigurableTask,), {"CONFIG": CONFIG})]: a new class,
    with an identity of its own. The interpreter refuses a class name that
    holds a NUL character. (It also refuses a lone surrogate; strings are
    sequences of 8-bit characters here and have none.) *)
Definition new_class (name : string) (CONFIG : TaskConfig) : M TaskFactory :=
  if has_nul name
  then raise (ValueError "type name must not contain null characters")
  else
    id ← fresh_id;
    mret (MkFactory id name CONFIG).

Definition register_configurable_task (config : Config) : M nat :=
  task ← lift (dict_get config "task");
  name ← lift (expect_str task);
  SubClass ← new_class (name ++ "ConfigurableTask") (MkTaskConfig config);
  match config !! "task" with
  | Some task => register_task (py_str task) SubClass
  | None => mret tt
  end;;
  register_groups config task SubClass;;
  mret 0.

(** [isinstance(v, str)] and [isinstance(v, list)]. *)
Definition is_str (v : value) : bool :=
  match v with VStr _ => true | _ => false end.
Definition is_list (v : value) : bool :=
  match v with VList _ => true | _ => false end.

(** The names among the members of a group definition. *)
Fixpoint member_names (all_task_list : list value) : list string :=
  match all_task_list with
  | [] => []
  | VStr name :: rest => name :: member_names rest
  | _ :: rest => member_names rest
  end.

(** [task_name in ALL_TASKS]: a sequence or a mapping cannot be hashed, and
    only a string can be equal to a name of the set. *)
Definition in_ALL_TASKS (task_name : value) (w : world) : result bool :=
  match task_name with
  | VStr name => Ok (bool_decide (name ∈ ALL_TASKS w))
  | VList _ | VDict _ => Raise TypeError
  | _ => Ok false
  end.

(** [if isinstance(task_obj, tuple): _, task_obj = task_obj], then the test
    [task_obj is not None]: the class a registry slot gives, if any. *)
Definition class_of (task_obj : registry_value) : option TaskFactory :=
  match task_obj with
  | Factory c => Some c
  | Paired _ c => c
  | NoFactory => None
  end.

(** The merge base of an inline member and the name forced on it: the pair
    [(base_config, task_name_config)] that the first half of the loop body
    computes. *)
Definition member_base (group : value) (task_config : Config) (w : world)
    : result (Config * Config) :=
  match task_config !! "task" with
  | Some task_name =>
      known ← in_ALL_TASKS task_name w;
      if known : bool then
        match registry_lookup (TASK_REGISTRY w) (py_str task_name) with
        | None => Raise (KeyError (py_str task_name))
        | Some task_obj =>
            match class_of task_obj with
            | Some c =>
                Ok (to_dict (CONFIG c),
                    {["task" :=
                        VStr (py_str group ++ "_" ++ py_str task_name)]})
            | None => Ok (∅, ∅)
            end
        end
      else Ok (∅, ∅)
  | None => Ok (∅, ∅)
  end.

(** The config an inline member is registered from:
    [{**base_config, **task_config, **{"group": group},
    **task_name_config}]. *)
Definition merged_config (base_config task_config : Config) (group : value)
    (task_name_config : Config) : Config :=
  task_name_config ∪ <["group" := group]> (task_config ∪ base_config).

(** One turn of the loop over the inline members. A member that is neither
    a name nor a mapping cannot be merged. *)
Definition register_group_member (group : value) (yaml_path : string)
    (member : value) : M unit :=
  match member with
  | VDict fields =>
      let task_config := dict_of_fields fields in
      w ← get_world;
      '(base_config, task_name_config) ←
        lift (member_base group task_config w);
      task_config ← lift (load_yaml_config yaml_path (Some task_config));
      var_configs ← lift
        (check_prompt_config
           (merged_config base_config task_config group task_name_config)
           (dirname yaml_path));
      for_each (λ config, register_configurable_task config;; mret tt)
        var_configs
  | _ => raise TypeError
  end.

(** One turn of the loop over the matched names. Registry keys are names:
    a group that is not a string is no key of [GROUP_REGISTRY]. *)
Definition link_member (group : value) (task : string) : M unit :=
  w ← get_world;
  if bool_decide (is_Some (registry_lookup (TASK_REGISTRY w) task))
     || bool_decide (is_Some (GROUP_REGISTRY w !! task))
  then
    g ← lift (expect_str group);
    match GROUP_REGISTRY w !! g with
    | Some members =>
        modify (set_GROUP_REGISTRY
                  (<[g := (members ++ [task])%list]> (GROUP_REGISTRY w)))
    | None =>
        modify (λ w, set_ALL_TASKS ({[g]} ∪ ALL_TASKS w)
                       (set_GROUP_REGISTRY
                          (<[g := [task]]> (GROUP_REGISTRY w)) w))
    end
  else mret tt.

(** Called with a definition whose [task] field is a sequence. *)
Definition register_configurable_group (config : Config)
    (yaml_path : string) : M nat :=
  group ← lift (dict_get config "group");
  all_task_list ← lift (dict_get config "task");
  all_task_list ← lift (match all_task_list with
                        | VList items => Ok items
                        | _ => Raise TypeError
                        end);
  let config_list := filter (λ task, is_str task = false) all_task_list in
  let task_list := member_names all_task_list in
  for_each (register_group_member group yaml_path) config_list;;
  w ← get_world;
  for_each (link_member group) (pattern_match task_list (ALL_TASKS w));;
  mret 0.

(** *** Discovery walker *)

(** The body of the [try] for one definition file. *)
Definition load_definition (register_task : bool) (yaml_path : string)
    : M unit :=
  config ← lift (load_yaml_config yaml_path None);
  if bool_decide (is_Some (config !! "task")) then
    all_configs ← lift (check_prompt_config config (dirname yaml_path));
    for_each
      (λ config,
         task ← lift (dict_get config "task");
         if register_task then
           if is_str task then register_configurable_task config;; mret tt
           else mret tt
         else
           if is_list task
           then register_configurable_group config yaml_path;; mret tt
           else mret tt)
      all_configs
  else mret tt.

(** [except (ImportError, ModuleNotFoundError)]. *)
Definition is_import_error (e : exn) : bool :=
  match e with
  | ImportError | ModuleNotFoundError => true
  | _ => false
  end.

(** The [try] statement for one definition file: every exception is caught
    by one of the two handlers. The result is the new [import_fail]. *)
Definition include_yaml (register_task : bool) (yaml_path : string)
    (import_fail : bool) : M bool :=
  λ w,
    match load_definition register_task yaml_path w with
    | (w', Ok _) => (w', Ok import_fail)
    | (w', Raise e) =>
        if is_import_error e
        then (add_log (DebugNotAdded yaml_path e) w', Ok true)
        else (add_log (WarningUnexpected yaml_path e) w', Ok import_fail)
    end.

(** [for f in file_list]. *)
Fixpoint walk_files (register_task : bool) (root : string)
    (file_list : list string) (import_fail : bool) : M bool :=
  match file_list with
  | [] => mret import_fail
  | f :: rest =>
      import_fail ←
        (if endswith f ".yaml"
         then include_yaml register_task (path_join root f) import_fail
         else mret import_fail);
      walk_files register_task root rest import_fail
  end.

(** [for root, subdirs, file_list in walk_list]. *)
Fixpoint walk_dirs (register_task : bool)
    (walk_list : list (string * list string * list string))
    (import_fail : bool) : M bool :=
  match walk_list with
  | [] => mret import_fail
  | (root, subdirs, file_list) :: rest =>
      import_fail ← walk_files register_task root file_list import_fail;
      walk_dirs register_task rest import_fail
  end.

Definition include_task_folder (task_dir : string) (register_task : bool)
    : M nat :=
  import_fail ← walk_dirs register_task (os_walk task_dir) false;
  (if import_fail : bool then eval_logger WarningMissingDependencies
   else mret tt);;
  mret 0.

(** [TASK_REGISTRY[key] = value] for every cached item, and the same for
    the groups and the names. *)
Definition restore_registries : M unit :=
  modify (λ w,
    set_ALL_TASKS (cached_all_tasks w ∪ ALL_TASKS w)
      (set_GROUP_REGISTRY (cached_group_registry w ∪ GROUP_REGISTRY w)
         (set_TASK_REGISTRY
            (foldl (λ r kv, registry_insert kv.1 kv.2 r) (TASK_REGISTRY w)
               (cached_task_registry w)) w))).

Definition include_path (task_dir : string) (use_cache rewrite_cache : bool)
    : M unit :=
  w ← get_world;
  let caches_exist := caches_exist w in
  if negb rewrite_cache && caches_exist then restore_registries
  else
    include_task_folder task_dir true;;
    include_task_folder task_dir false;;
    if use_cache && (negb caches_exist || rewrite_cache)
    then save_registries_to_cache
    else mret tt.

(** *** Resolution *)

(** Modelled from the spec: calling a registered factory with [config]
    builds a fresh task instance. A registry slot that holds no class
    cannot be called. *)
Definition call_factory (factory : registry_value) (config : Config)
    : M Task :=
  match factory with
  | Factory c =>
      id ← fresh_id;
      mret (MkTask id (class_name c) None (Some (CONFIG c)) config)
  | _ => raise TypeError
  end.

(** Modelled from the spec: [ConfigurableTask(config=...)] constructs a
    fresh task instance directly from a record; nothing is registered. *)
Definition ConfigurableTask (config : Config) : M Task :=
  id ← fresh_id;
  mret (MkTask id "ConfigurableTask" None None config).

Definition get_task (task_name : string) (config : Config) : M Task :=
  w ← get_world;
  match registry_lookup (TASK_REGISTRY w) task_name with
  | Some configurable_task_factory =>
      call_factory configurable_task_factory config
  | None =>
      eval_logger InfoAvailableTasks;;
      eval_logger InfoTaskNames;;
      raise (KeyError ("Missing task " ++ task_name))
  end.

(** [class_ is task_object]: the two are one object. *)
Definition is_same_object (class_ : registry_value) (task_object : Task)
    : bool :=
  match class_ with
  | Factory c => bool_decide (class_id c = task_id task_object)
  | _ => false
  end.

Definition get_task_name_from_object (task_object : Task) (w : world)
    : string :=
  match find (λ item, is_same_object item.2 task_object) (TASK_REGISTRY w)
  with
  | Some (name, _) => name
  | None =>
      match EVAL_HARNESS_NAME task_object with
      | Some name => name
      | None => type_name task_object
      end
  end.

(** An element of the request list: a name, a dictionary of the caller
    (held by its address in the heap), a live task, or something else. *)
Inductive task_element : Type :=
  | EName (name : string)
  | EDict (address : nat)
  | ETask (task_object : Task)
  | EOther.

(** The first argument of [get_task_dict]: a list, or one element. *)
Inductive task_request : Type :=
  | RList (elements : list task_element)
  | ROne (element : task_element).

(** [if not isinstance(task_name_list, list): task_name_list =
    [task_name_list]]. *)
Definition as_list (task_name_list : task_request) : list task_element :=
  match task_name_list with
  | RList elements => elements
  | ROne element => [element]
  end.

(** The three mappings the loop of [get_task_dict] fills. *)
Record resolution : Type := MkResolution {
  task_name_from_registry_dict : task_dict;
  task_name_from_config_dict : task_dict;
  task_name_from_object_dict : task_dict;
}.

Section loop.

(** The recursive call [get_task_dict(task_name)]. *)
Variable recurse : task_request → Config → M task_dict.

(** [for task_name in GROUP_REGISTRY[task_element]]. *)
Fixpoint resolve_group (group_name : string) (members : list string)
    (registry_dict : task_dict) : M task_dict :=
  match members with
  | [] => mret registry_dict
  | task_name :: rest =>
      registry_dict ←
        (if bool_decide (is_Some (registry_dict !! task_name))
         then mret registry_dict
         else
           task_obj ← recurse (ROne (EName task_name)) ∅;
           let task_dict : task_dict :=
             match task_obj !! task_name with
             | Some e => {[task_name := EPair group_name e]}
             | None => task_obj ∪ {[task_name := EPair group_name ENone]}
             end in
           mret (task_dict ∪ registry_dict));
      resolve_group group_name rest registry_dict
  end.

(** The branch for a name that is no group. *)
Definition resolve_task (task_name : string) (config : Config)
    (registry_dict : task_dict) : M task_dict :=
  if bool_decide (is_Some (registry_dict !! task_name))
  then mret registry_dict
  else
    let cache_key := "raw-" ++ task_name in
    cached ← load_from_cache cache_key;
    if bool_decide (dom cached ≠@{gset string} ∅) then mret (cached ∪ registry_dict)
    else
      task ← get_task task_name config;
      let registry_dict := <[task_name := EInst task]> registry_dict in
      save_to_cache cache_key registry_dict;;
      mret registry_dict.

(** [task_element.update(config)] on the caller's dictionary, then the
    task built from it. An address outside the heap names no
    dictionary. *)
Definition resolve_dict (address : nat) (config : Config)
    (config_dict : task_dict) : M task_dict :=
  w ← get_world;
  match heap w !! address with
  | None => raise (OtherException 0)
  | Some task_element =>
      let task_element := config ∪ task_element in
      modify (set_heap (<[address := task_element]> (heap w)));;
      name ← lift (get_task_name_from_config task_element);
      task ← ConfigurableTask task_element;
      mret (<[name := EInst task]> config_dict)
  end.

(** One turn of [for task_element in task_name_list]. *)
Definition resolve_element (config : Config) (task_element : task_element)
    (acc : resolution) : M resolution :=
  match task_element with
  | EName name =>
      w ← get_world;
      registry_dict ←
        match GROUP_REGISTRY w !! name with
        | Some members =>
            resolve_group name members (task_name_from_registry_dict acc)
        | None =>
            resolve_task name config (task_name_from_registry_dict acc)
        end;
      mret (MkResolution registry_dict (task_name_from_config_dict acc)
              (task_name_from_object_dict acc))
  | EDict address =>
      config_dict ←
        resolve_dict address config (task_name_from_config_dict acc);
      mret (MkResolution (task_name_from_registry_dict acc) config_dict
              (task_name_from_object_dict acc))
  | ETask task_object =>
      w ← get_world;
      mret (MkResolution (task_name_from_registry_dict acc)
              (task_name_from_config_dict acc)
              (<[get_task_name_from_object task_object w :=
                   EInst task_object]> (task_name_from_object_dict acc)))
  | EOther => mret acc
  end.

Fixpoint resolve_elements (config : Config)
    (task_name_list : list task_element) (acc : resolution)
    : M resolution :=
  match task_name_list with
  | [] => mret acc
  | task_element :: rest =>
      acc ← resolve_element config task_element acc;
      resolve_elements config rest acc
  end.

(** The assertion and the [return] that end [get_task_dict]. *)
Definition finish (acc : resolution) : M task_dict :=
  if bool_decide (dom (task_name_from_registry_dict acc) ##@{gset string}
                  dom (task_name_from_object_dict acc))
  then mret (task_name_from_object_dict acc ∪
             (task_name_from_config_dict acc ∪
              task_name_from_registry_dict acc))
  else raise AssertionError.

End loop.

(** [get_task_dict(task_name_list, **kwargs)]. The group branch calls the
    function again; [depth] bounds the nesting of these calls, and a call
    that needs more raises [RecursionError]. *)
Fixpoint get_task_dict (depth : nat) (task_name_list : task_request)
    (kwargs : Config) : M task_dict :=
  match depth with
  | 0 => raise RecursionError
  | S depth' =>
      let config := kwargs in
      acc ← resolve_elements (get_task_dict depth') config
              (as_list task_name_list) (MkResolution ∅ ∅ ∅);
      finish acc
  end.

(** ** Notions used in the statements *)

(** The world [register_configurable_task] leaves once the class is made and
    registered under [name]. *)
Definition registered_world (name : string) (config : Config) (w : world)
    : world :=
  set_ALL_TASKS ({[name]} ∪ ALL_TASKS w)
    (set_TASK_REGISTRY
       (registry_insert name
          (Factory (MkFactory (next_id w) (name ++ "ConfigurableTask")
                      (MkTaskConfig config)))
          (TASK_REGISTRY w))
       (set_next_id (S (next_id w)) w)).

(** [name] is registered with the value [v]: the slot of [name] in
    [TASK_REGISTRY] holds [v], and [ALL_TASKS] holds [name]. *)
Definition registered_as (name : string) (v : registry_value) (w : world)
    : Prop :=
  registry_lookup (TASK_REGISTRY w) name = Some v ∧ name ∈ ALL_TASKS w.

(** The members of a group definition that are no names, in order. *)
Definition inline_members (all_task_list : list value) : list value :=
  filter (λ task, is_str task = false) all_task_list.

(** What [register_configurable_group] still does once it is done with an
    inline member: the inline members after it, then the loop over the
    matched names of the whole list. *)
Definition group_rest (group : value) (yaml_path : string)
    (all_task_list after : list value) : M nat :=
  for_each (register_group_member group yaml_path) (inline_members after);;
  w ← get_world;
  for_each (link_member group)
    (pattern_match (member_names all_task_list) (ALL_TASKS w));;
  mret 0.

(** The config made for one variation, given the two joined names. *)
Definition variant_of (config : Config) (base prompt_variation short : string)
    : Config :=
  <["output_type" := VStr "generate_until"]>
    (<["task" := VStr (base ++ "_" ++ short)]>
       (<["use_prompt" := VStr prompt_variation]> config)).

(** [preserves P m]: when [P] holds before [m] runs it holds in the world [m]
    leaves, whether [m] returns or raises. *)
Definition preserves {A} (P : world → Prop) (m : M A) : Prop :=
  ∀ w, P w → P (m w).1.

(** [name] is a registered task: [TASK_REGISTRY] has a slot for it and
    [ALL_TASKS] holds it. *)
Definition task_known (name : string) (w : world) : Prop :=
  is_Some (registry_lookup (TASK_REGISTRY w) name) ∧ name ∈ ALL_TASKS w.

(** The config [c] registers: [register_configurable_task] returns for it,
    in whatever world it is called. *)
Definition registers (c : Config) : Prop :=
  ∀ w, (register_configurable_task c w).2 = Ok 0.

(** The definition file at [yaml_path] defines the task [t]: its definition
    loads and has a string as its [task] field; it expands to a list of
    configs (itself alone when it has no prompt selector, one config per
    variation otherwise) of which one has [t] as its task; a class can be
    made for [t], and the configs before that one in the list register. *)
Definition file_defines_task (yaml_path t : string) : Prop :=
  ∃ config task before c after,
    load_yaml_config yaml_path None = Ok config ∧
    config !! "task" = Some (VStr task) ∧
    check_prompt_config config (dirname yaml_path)
      = Ok (before ++ c :: after)%list ∧
    c !! "task" = Some (VStr t) ∧
    has_nul t = false ∧
    Forall registers before.

(** [t] is a task defined by a file the walk meets: a file named [*.yaml]
    of a walked directory. *)
Definition defines_task
    (walk_list : list (string * list string * list string)) (t : string)
    : Prop :=
  ∃ root subdirs file_list f,
    (root, subdirs, file_list) ∈ walk_list ∧
    f ∈ file_list ∧
    endswith f ".yaml" = true ∧
    file_defines_task (path_join root f) t.

(** The caller's dictionaries are as in [h]. *)
Definition heap_is (h : gmap nat Config) (w : world) : Prop := heap w = h.

(** The task a registered class gives when it is called with [config] in
    the world [w]. *)
Definition new_task (c : TaskFactory) (config : Config) (w : world) : Task :=
  MkTask (next_id w) (class_name c) None (Some (CONFIG c)) config.

(** The world left by the resolution of one plain task on a cache miss. *)
Definition world_after_task (task_name : string) (c : TaskFactory)
    (config : Config) (w : world) : world :=
  (save_to_cache ("raw-" ++ task_name)
     {[task_name := EInst (new_task c config w)]}
     (set_next_id (S (next_id w)) w)).1.

(** The three registries are as in [r]. *)
Definition registries_are
    (r : task_registry * gmap string (list string) * gset string) (w : world)
    : Prop :=
  (TASK_REGISTRY w, GROUP_REGISTRY w, ALL_TASKS w) = r.

(** The names of [TASK_REGISTRY], in order. *)
Definition registry_keys (r : task_registry) : list string := r.*1.

(** What registration leaves alone: the cache, the caller's dictionaries and
    the log are as given and, when [unique] is set, no name has two slots in
    [TASK_REGISTRY]. *)
Definition tidy (c : cache_store) (h : gmap nat Config) (l : list log_record)
    (unique : bool) (w : world) : Prop :=
  cache w = c ∧ heap w = h ∧ log w = l ∧
  (unique = true → NoDup (registry_keys (TASK_REGISTRY w))).

(** The same without the log, which the walk writes. *)
Definition stored (c : cache_store) (h : gmap nat Config) (unique : bool)
    (w : world) : Prop :=
  cache w = c ∧ heap w = h ∧
  (unique = true → NoDup (registry_keys (TASK_REGISTRY w))).

(** The record the walk writes when the definition file at [yaml_path]
    raises [e]: a debug record for an import error, a warning otherwise. *)
Definition failure_record (yaml_path : string) (e : exn) : log_record :=
  if is_import_error e then DebugNotAdded yaml_path e
  else WarningUnexpected yaml_path e.

(** The paths of the definition files of a walk, in the order of the walk:
    directory after directory, the files named [*.yaml] of each. *)
Definition definition_paths
    (walk_list : list (string * list string * list string)) : list string :=
  '(root, _, file_list) ← walk_list;
  path_join root <$> filter (λ f, endswith f ".yaml" = true) file_list.

(** The definition files at [paths] taken one after the other: the body of
    the [try] runs for each path in the world the path before it left; when
    it raises, the failure is logged and the run goes on with the next path.
    The result is the last world and the failures met, in order. *)
Fixpoint run_definitions (register_task : bool) (paths : list string)
    (w : world) : world * list (string * exn) :=
  match paths with
  | [] => (w, [])
  | yaml_path :: rest =>
      match load_definition register_task yaml_path w with
      | (w1, Ok _) => run_definitions register_task rest w1
      | (w1, Raise e) =>
          let rest_run :=
            run_definitions register_task rest
              (add_log (failure_record yaml_path e) w1) in
          (rest_run.1, (yaml_path, e) :: rest_run.2)
      end
  end.

(** One of the failures is an import error. *)
Definition failed_imports (failed : list (string * exn)) : bool :=
  existsb (λ failure, is_import_error failure.2) failed.

(** A record the walk writes for one file: a debug record with an import
    error or a warning with another exception. *)
Definition file_record (r : log_record) : Prop :=
  match r with
  | DebugNotAdded _ e => is_import_error e = true
  | WarningUnexpected _ e => is_import_error e = false
  | _ => False
  end.

Definition is_debug_record (r : log_record) : bool :=
  match r with
  | DebugNotAdded _ _ => true
  | _ => false
  end.

(** The names of a list that have a slot in [TASK_REGISTRY] or in
    [GROUP_REGISTRY]. *)
Definition linked_names (w : world) (names : list string) : list string :=
  filter (λ task, is_Some (registry_lookup (TASK_REGISTRY w) task) ∨
                  is_Some (GROUP_REGISTRY w !! task)) names.

(** [name] is a plain task of [w]: it is no group, its slot in
    [TASK_REGISTRY] holds the class [c], and nothing is cached for it. *)
Definition plain_task (w : world) (name : string) (c : TaskFactory) : Prop :=
  GROUP_REGISTRY w !! name = None ∧
  registry_lookup (TASK_REGISTRY w) name = Some (Factory c) ∧
  raw (cache w) !! ("raw-" ++ name) = None.

(** [e] pairs the group [g] with an instance of [c] made without
    overrides. *)
Definition member_entry (g : string) (c : TaskFactory) (e : entry) : Prop :=
  ∃ id,
    e = EPair g (EInst (MkTask id (class_name c) None (Some (CONFIG c)) ∅)).

(** The mapping of live task objects built from left to right: each object
    goes under the name [get_task_name_from_object] finds for it. *)
Definition object_dict (get_name : Task → string) (objects : list Task)
    : task_dict :=
  foldl (λ d task_object, <[get_name task_object := EInst task_object]> d)
    ∅ objects.

(** ** A small definition directory and some worlds, for the examples *)

Definition ex_repr (v : value) : string := "<object>".

Definition ex_prompt_list (use_prompt dataset_path : value)
    (subset_name : option value) (yaml_path : string)
    : result (list string) :=
  Ok ["prompts/qa.yaml"; "plain"].

(** The directory [tasks] holds a group definition, a file that does not
    parse, a file that needs a missing module and two plain tasks. *)
Definition ex_yaml (yaml_path : string) (yaml_config : option Config)
    : result Config :=
  match yaml_config with
  | Some c => Ok c
  | None =>
      if bool_decide (yaml_path = "tasks/alpha.yaml")
      then Ok {["task" := VStr "alpha"]}
      else if bool_decide (yaml_path = "tasks/beta.yaml")
      then Ok {["task" := VStr "beta"]}
      else if bool_decide (yaml_path = "tasks/mygroup.yaml")
      then Ok {["group" := VStr "mygroup";
                "task" := VList [VStr "alpha"; VStr "beta"]]}
      else if bool_decide (yaml_path = "tasks/needs_module.yaml")
      then Raise ModuleNotFoundError
      else Raise (OtherException 1)
  end.

Definition ex_pattern_match (patterns : list string) (names : gset string)
    : list string :=
  filter (λ p, p ∈ names) patterns.

Definition ex_files : list string :=
  ["mygroup.yaml"; "broken.yaml"; "needs_module.yaml"; "notes.txt";
   "alpha.yaml"; "beta.yaml"].

Definition ex_walk (task_dir : string)
    : list (string * list string * list string) :=
  [(task_dir, [], ex_files)].

Definition ex_join (root f : string) : string := root ++ "/" ++ f.

Definition ex_dirname (yaml_path : string) : string := "tasks".

Definition empty_cache : cache_store := MkCache None None None ∅.

Definition empty_world : world := MkWorld [] ∅ ∅ empty_cache ∅ 0 [].

Definition ex_class (id : nat) (name : string) : TaskFactory :=
  MkFactory id (name ++ "ConfigurableTask")
    (MkTaskConfig {["task" := VStr name]}).

(** Two registered tasks and the group [mygroup] of both. *)
Definition group_world : world :=
  MkWorld [("alpha", Factory (ex_class 0 "alpha"));
           ("beta", Factory (ex_class 1 "beta"))]
    {["mygroup" := ["alpha"; "beta"]]}
    {["alpha"; "beta"; "mygroup"]} empty_cache ∅ 2 [].

(** The same, where [beta] is also the name of a group that holds
    [alpha]. *)
Definition nested_world : world :=
  set_GROUP_REGISTRY
    {["mygroup" := ["alpha"; "beta"]; "beta" := ["alpha"]]} group_world.

(** A world whose cache holds the three registries. *)
Definition cached_world : world :=
  set_cache
    (MkCache (Some [("gamma", Factory (ex_class 0 "gamma"))])
       (Some {["others" := ["gamma"]]}) (Some {["gamma"; "others"]}) ∅)
    empty_world.

(** A config with a prompt selector. *)
Definition ex_prompted : Config :=
  {["task" := VStr "qa"; "use_prompt" := VStr "promptsource:*";
    "dataset_path" := VStr "squad"]}.

(** A dictionary of the caller at address [7]. *)
Definition dict_world : world :=
  set_heap {[7 := {["dataset_path" := VStr "squad"; "num_fewshot" := VOther 0]}]}
    group_world.

(** A live task that reports under the name [alpha]. *)
Definition live_alpha : Task :=
  MkTask 9 "MyTask" (Some "alpha") None ∅.

(** The instance the examples get for a task registered by [ex_class]. *)
Definition ex_task (id : nat) (name : string) : Task :=
  MkTask id (name ++ "ConfigurableTask") None
    (Some (MkTaskConfig {["task" := VStr name]})) ∅.

(** A name with a NUL character in it. *)
Definition ex_nul_name : string := "a" ++ String nul "b".

(** The directory [odd] holds a plain task whose name has a NUL character,
    a definition with a prompt selector whose group is the name of its
    first variant, and the same definition without a group. *)
Definition ex_yaml_odd (yaml_path : string) (yaml_config : option Config)
    : result Config :=
  match yaml_config with
  | Some c => Ok c
  | None =>
      if bool_decide (yaml_path = "odd/nul.yaml")
      then Ok {["task" := VStr ex_nul_name]}
      else if bool_decide (yaml_path = "odd/grouped.yaml")
      then Ok (<["group" := VStr "qa_qa.yaml"]> ex_prompted)
      else if bool_decide (yaml_path = "odd/qa.yaml")
      then Ok ex_prompted
      else Raise (OtherException 1)
  end.

Definition ex_walk_odd (task_dir : string)
    : list (string * list string * list string) :=
  [(task_dir, [], ["nul.yaml"; "grouped.yaml"])].

Definition ex_walk_qa (task_dir : string)
    : list (string * list string * list string) :=
  [(task_dir, [], ["qa.yaml"])].

(** The task [alpha] is registered with a class whose config has fields
    of its own. *)
Definition ex_base_class : TaskFactory :=
  MkFactory 0 "alphaConfigurableTask"
    (MkTaskConfig {["task" := VStr "alpha"; "num_fewshot" := VOther 0;
                    "dataset_path" := VStr "squad"]}).

Definition base_world : world :=
  MkWorld [("alpha", Factory ex_base_class)] ∅ {["alpha"]} empty_cache ∅ 1 [].

(** A group definition with a name and an inline member that overrides a
    field of [alpha]. *)
Definition ex_group_config : Config :=
  {["group" := VStr "mygroup";
    "task" := VList [VStr "alpha";
                     VDict [("task", VStr "alpha");
                            ("num_fewshot", VOther 5)]]]}.

(** A group definition whose inline member names a group. *)
Definition ex_group_of_group : Config :=
  {["group" := VStr "others";
    "task" := VList [VStr "alpha";
                     VDict [("task", VStr "mygroup");
                            ("num_fewshot", VOther 5)]]]}.

(** The group [loop] lists itself first. *)
Definition loop_world : world :=
  set_GROUP_REGISTRY {["loop" := ["loop"; "alpha"]]} group_world.

(** A dictionary of the caller without a dataset path. *)
Definition bare_world : world :=
  set_heap {[7 := {["num_fewshot" := VOther 0]}]} group_world.

(** The task [squad] is registered, and the caller's dictionary at
    address [7] derives the same name. *)
Definition squad_world : world :=
  MkWorld [("squad", Factory (ex_class 0 "squad"))] ∅ {["squad"]}
    empty_cache {[7 := {["dataset_path" := VStr "squad"]}]} 1 [].

(** A prompt list with the same file name in two directories. *)
Definition ex_prompt_files (use_prompt dataset_path : value)
    (subset_name : option value) (yaml_path : string)
    : result (list string) :=
  Ok ["en/qa.yaml"; "fr/qa.yaml"].

(** A directory without definition files. *)
Definition ex_walk_notes (task_dir : string)
    : list (string * list string * list string) :=
  [(task_dir, [], ["notes.txt"])].


(** * Properties *)

(** ** The registry keeps what is put in it *)

Lemma registry_lookup_insert name v r :
  registry_lookup (registry_insert name v r) name = Some v.
Proof.
  induction r as [|[k v'] r IH]; simpl.
  - by rewrite bool_decide_true.
  - case_bool_decide as Hk; simpl.
    + by rewrite bool_decide_true.
    + by rewrite bool_decide_false.
Qed.

Lemma registry_lookup_insert_ne name name' v r :
  name ≠ name' →
  registry_lookup (registry_insert name v r) name' = registry_lookup r name'.
Proof.
  intros Hne. induction r as [|[k v'] r IH]; simpl.
  - by rewrite bool_decide_false.
  - case_bool_decide as Hk; simpl.
    + subst k. by rewrite !bool_decide_false.
    + case_bool_decide; [done | apply IH].
Qed.

Lemma registry_insert_is_Some name name' v r :
  is_Some (registry_lookup r name') →
  is_Some (registry_lookup (registry_insert name v r) name').
Proof.
  intros H. destruct (decide (name = name')) as [->|Hne].
  - rewrite registry_lookup_insert. eauto.
  - by rewrite registry_lookup_insert_ne.
Qed.

Lemma py_eq_str s : py_eq (VStr s) (VStr s) = true.
Proof. simpl. by rewrite bool_decide_true. Qed.

(** [set_solver] on the goal alone, without the collaborators. *)
Local Ltac sets :=
  try clear dirname; try clear path_join; try clear os_walk;
  try clear pattern_match; try clear load_yaml_config;
  try clear load_prompt_list; try clear py_repr;
  set_solver.

(** Unfolding of the monad's operations. *)
Ltac run :=
  unfold mbind, M_bind, mret, M_ret, lift, raise, modify, get_world,
    fresh_id, eval_logger; simpl.

(** ** Registration of one task *)

Lemma has_nul_app a b : has_nul (a ++ b) = has_nul a || has_nul b.
Proof.
  induction a as [|c a IH]; [done|].
  simpl. by rewrite IH, orb_assoc.
Qed.

Lemma class_name_nul s : has_nul (s ++ "ConfigurableTask") = has_nul s.
Proof. rewrite has_nul_app. apply orb_false_r. Qed.

Lemma new_class_ok name CONFIG w :
  has_nul name = false →
  new_class name CONFIG w =
    (set_next_id (S (next_id w)) w, Ok (MkFactory (next_id w) name CONFIG)).
Proof. intros Hnul. unfold new_class. by rewrite Hnul. Qed.

Lemma register_configurable_task_nul config s w :
  config !! "task" = Some (VStr s) →
  has_nul s = true →
  register_configurable_task config w =
    (w, Raise (ValueError "type name must not contain null characters")).
Proof.
  intros Ht Hnul. unfold register_configurable_task, dict_get, new_class.
  rewrite Ht. run. by rewrite class_name_nul, Hnul.
Qed.

Lemma register_configurable_task_collision config s w :
  config !! "task" = Some (VStr s) →
  config !! "group" = Some (VStr s) →
  has_nul s = false →
  register_configurable_task config w =
    (registered_world s config w, Raise GroupTaskNameCollisionError).
Proof.
  intros Ht Hg Hnul.
  unfold register_configurable_task, register_groups, dict_get, register_task.
  rewrite Ht, Hg. run.
  rewrite new_class_ok by by rewrite class_name_nul.
  simpl. by rewrite bool_decide_true.
Qed.

(** C6 (amended): registering a configurable task from a config whose
    [task] and [group] fields hold the same string fails, whatever the
    other fields and the world: with the error "task and group name cannot
    be the same" when the string holds no NUL character, and otherwise with
    the error of the class creation, "type name must not contain null
    characters", before anything is registered. *)
Theorem collision_always_fails (config : Config) (s : string) (w : world) :
  config !! "task" = Some (VStr s) →
  config !! "group" = Some (VStr s) →
  (has_nul s = false →
   (register_configurable_task config w).2
     = Raise (ValueError "task and group name cannot be the same")) ∧
  (has_nul s = true →
   register_configurable_task config w
     = (w, Raise (ValueError "type name must not contain null characters"))).
Proof.
  intros Ht Hg. split; intros Hnul.
  - by rewrite (register_configurable_task_collision _ s).
  - by apply (register_configurable_task_nul _ s).
Qed.

(** ** Prompt expansion *)

Lemma str_contains_slash_cons a s :
  str_contains "/" (String a s) = false →
  a ≠ slash ∧ str_contains "/" s = false.
Proof.
  simpl. intros H. apply orb_false_iff in H as [H1 H2]. split; [|done].
  intros ->. by vm_compute in H1.
Qed.

Lemma py_split_no_slash s :
  str_contains "/" s = false → py_split slash s = [s].
Proof.
  induction s as [|a s IH]; [done|].
  intros [Ha Hs]%str_contains_slash_cons. simpl.
  rewrite bool_decide_false by done. by rewrite IH.
Qed.

Lemma py_split_dir dir file :
  str_contains "/" file = false →
  ∃ piece pieces,
    py_split slash (dir ++ "/" ++ file) = ((piece :: pieces) ++ [file])%list.
Proof.
  intros Hfile. induction dir as [|a dir (piece & pieces & IH)]; simpl.
  - exists "", []. by rewrite py_split_no_slash.
  - simpl in IH. rewrite IH. case_bool_decide; simpl.
    + by exists "", (piece :: pieces).
    + by exists (String a piece), pieces.
Qed.

Lemma last_item_snoc (l : list string) x :
  last_item (l ++ [x])%list = Ok x.
Proof. unfold last_item. by rewrite last_snoc. Qed.

Lemma variation_name_inline pv :
  str_contains ".yaml" pv = false → variation_name pv = Ok pv.
Proof. unfold variation_name. by intros ->. Qed.

Lemma variation_name_file dir file :
  str_contains "/" file = false →
  str_contains ".yaml" (dir ++ "/" ++ file) = true →
  variation_name (dir ++ "/" ++ file) = Ok file.
Proof.
  intros Hfile Hyaml. unfold variation_name. rewrite Hyaml.
  destruct (py_split_dir dir file Hfile) as (piece & pieces & ->).
  apply last_item_snoc.
Qed.

Lemma variation_name_total pv : ∃ short, variation_name pv = Ok short.
Proof.
  unfold variation_name. destruct (str_contains ".yaml" pv); [|eauto].
  unfold last_item.
  destruct (last (py_split slash pv)) as [x|] eqn:Hlast; [eauto|].
  apply last_None in Hlast. destruct pv; simpl in Hlast; [done|].
  case_bool_decide; [done|]. by destruct (py_split slash pv).
Qed.

Lemma variant_configs_spec config base prompt_list :
  base_task_name config = Ok base →
  ∃ cs, variant_configs config prompt_list = Ok cs ∧
        length cs = length prompt_list ∧
        ∀ i pv, prompt_list !! i = Some pv →
          ∃ short, variation_name pv = Ok short ∧
                   cs !! i = Some (variant_of config base pv short).
Proof.
  intros Hbase. induction prompt_list as [|pv rest (cs & Hcs & Hlen & Hall)].
  - exists []. split; [done|]. split; [done|]. by intros i pv.
  - destruct (variation_name_total pv) as [short Hshort].
    exists (variant_of config base pv short :: cs).
    split; [|split].
    + simpl. unfold variant_config. rewrite Hbase, Hshort. simpl.
      by rewrite Hcs.
    + simpl. by rewrite Hlen.
    + intros [|i] pv' Hpv; simpl in *.
      * injection Hpv as <-. eauto.
      * eauto.
Qed.

(** C4 (amended): without a selector the result is the one-element list of
    the unmodified config. With a selector, when the config has its
    [dataset_path], the prompt list loads and the base name is a string, the
    result has exactly one config per variation, in order; the config of a
    variation has [use_prompt] set to the variation, [output_type] set to
    ["generate_until"], [task] set to the base name joined by ["_"] with the
    short name, and every other field as in the config. The short name of a
    variation that does not contain [".yaml"] is the variation; the short name
    of one that does is the text after its last ["/"], extension included. *)
Theorem prompt_expansion (config : Config) (yaml_path : string) :
  (config !! "use_prompt" = None →
   check_prompt_config config yaml_path = Ok [config]) ∧
  (∀ use_prompt dataset_path prompt_list base,
     config !! "use_prompt" = Some use_prompt →
     config !! "dataset_path" = Some dataset_path →
     load_prompt_list use_prompt dataset_path (config !! "dataset_name")
       yaml_path = Ok prompt_list →
     base_task_name config = Ok base →
     ∃ cs,
       check_prompt_config config yaml_path = Ok cs ∧
       length cs = length prompt_list ∧
       ∀ i pv, prompt_list !! i = Some pv →
         ∃ c short,
           cs !! i = Some c ∧
           c !! "use_prompt" = Some (VStr pv) ∧
           c !! "output_type" = Some (VStr "generate_until") ∧
           c !! "task" = Some (VStr (base ++ "_" ++ short)) ∧
           (∀ k, k ≠ "use_prompt" → k ≠ "output_type" → k ≠ "task" →
                 c !! k = config !! k) ∧
           (str_contains ".yaml" pv = false → short = pv) ∧
           (str_contains ".yaml" pv = true →
            str_contains "/" pv = false → short = pv) ∧
           (str_contains ".yaml" pv = true →
            ∀ dir file, pv = dir ++ "/" ++ file →
                        str_contains "/" file = false → short = file)).
Proof.
  split.
  - intros Hsel. unfold check_prompt_config. by rewrite Hsel.
  - intros use_prompt dataset_path prompt_list base Hsel Hpath Hload Hbase.
    destruct (variant_configs_spec config base prompt_list Hbase)
      as (cs & Hcs & Hlen & Hall).
    exists cs. split; [|split; [done|]].
    + unfold check_prompt_config, dict_get. rewrite Hsel, Hpath. simpl.
      by rewrite Hload.
    + intros i pv Hpv. destruct (Hall i pv Hpv) as (short & Hshort & Hi).
      exists (variant_of config base pv short), short.
      unfold variant_of. split; [done|].
      split; [by simplify_map_eq|]. split; [by simplify_map_eq|].
      split; [by simplify_map_eq|]. split; [|split; [|split]].
      * intros k ? ? ?. by simplify_map_eq.
      * intros Hin. rewrite variation_name_inline in Hshort by done.
        by injection Hshort.
      * intros Hyaml Hslash. unfold variation_name in Hshort.
        rewrite Hyaml, py_split_no_slash in Hshort by done.
        by injection Hshort.
      * intros Hyaml dir file -> Hfile.
        rewrite variation_name_file in Hshort by done. by injection Hshort.
Qed.

(** ** Loops *)

Lemma for_each_app {A} (body : A → M unit) l1 l2 w :
  for_each body (l1 ++ l2)%list w = (for_each body l1;; for_each body l2) w.
Proof.
  revert w. induction l1 as [|x l1 IH]; intros w; [done|].
  simpl. unfold mbind, M_bind in *.
  destruct (body x w) as [w1 [[]|e]]; [apply IH | done].
Qed.

Lemma for_each_returns {A} (body : A → M unit) l :
  Forall (λ x, ∀ w, (body x w).2 = Ok tt) l →
  ∀ w, (for_each body l w).2 = Ok tt.
Proof.
  induction 1 as [|x l Hx _ IH]; intros w; [done|].
  simpl. unfold mbind, M_bind. specialize (Hx w).
  destruct (body x w) as [w1 [[]|e]]; [apply IH | done].
Qed.

(** ** Group members *)

Lemma member_base_known group task_config t task_obj c w :
  task_config !! "task" = Some (VStr t) →
  t ∈ ALL_TASKS w →
  registry_lookup (TASK_REGISTRY w) t = Some task_obj →
  class_of task_obj = Some c →
  member_base group task_config w =
    Ok (to_dict (CONFIG c), {["task" := VStr (py_str group ++ "_" ++ t)]}).
Proof.
  intros Ht Hin Hreg Hc. unfold member_base. rewrite Ht. simpl.
  rewrite bool_decide_true by done. simpl. by rewrite Hreg, Hc.
Qed.

(** The run of [register_configurable_group] from one of its inline
    members on. *)
Lemma register_configurable_group_at config group yaml_path before member
    after w0 w :
  config !! "group" = Some group →
  config !! "task" = Some (VList (before ++ member :: after)%list) →
  is_str member = false →
  for_each (register_group_member group yaml_path) (inline_members before) w0
    = (w, Ok tt) →
  register_configurable_group config yaml_path w0 =
    (register_group_member group yaml_path member;;
     group_rest group yaml_path (before ++ member :: after)%list after) w.
Proof.
  intros Hgroup Htask Hmember Hbefore.
  unfold register_configurable_group, dict_get. rewrite Hgroup, Htask.
  unfold group_rest, inline_members in *. run.
  rewrite filter_app, filter_cons, decide_True by done.
  rewrite for_each_app. unfold mbind, M_bind. rewrite Hbefore. simpl.
  unfold mbind, M_bind.
  destruct (register_group_member group yaml_path member w) as [w1 [[]|e]];
    [|done].
  by destruct (for_each _ _ w1) as [w2 [[]|e]].
Qed.

Lemma register_group_member_merged group yaml_path fields t task_obj c
    override w :
  dict_of_fields fields !! "task" = Some (VStr t) →
  t ∈ ALL_TASKS w →
  registry_lookup (TASK_REGISTRY w) t = Some task_obj →
  class_of task_obj = Some c →
  load_yaml_config yaml_path (Some (dict_of_fields fields)) = Ok override →
  register_group_member group yaml_path (VDict fields) w =
    match check_prompt_config
            (merged_config (to_dict (CONFIG c)) override group
               {["task" := VStr (py_str group ++ "_" ++ t)]})
            (dirname yaml_path) with
    | Ok var_configs =>
        for_each (λ config, register_configurable_task config;; mret tt)
          var_configs w
    | Raise e => (w, Raise e)
    end.
Proof.
  intros Ht Hin Hreg Hc Hload. unfold register_group_member. run.
  rewrite (member_base_known group _ t task_obj c) by done.
  rewrite Hload. by destruct (check_prompt_config _ _).
Qed.

(** C3: let a group definition have, among the members of its [task] list,
    an inline member that names a task [t] known to [ALL_TASKS] and held by
    [TASK_REGISTRY] with a class when [register_configurable_group] comes to
    it, that is in the world [w] which the inline members before it leave.
    The config handed to prompt expansion for the member is the merge of
    the class's config, the member's record as [load_yaml_config] returns
    it, the group and the synthesized name: its [task] is ["<group>_<t>"]
    and its [group] is the group whatever base and override say, every
    other field comes from the override when the override sets it and from
    the base otherwise. [register_configurable_group] registers each variant
    that prompt expansion returns for this config with
    [register_configurable_task], in order, and then goes on with the inline
    members that follow and the matched names; when the expansion fails, so
    does [register_configurable_group], in the world [w]. *)
Theorem group_member_merge (config : Config) (group : value)
    (yaml_path : string) (before after : list value)
    (fields : list (string * value)) (t : string) (task_obj : registry_value)
    (c : TaskFactory) (override : Config) (w0 w : world) :
  config !! "group" = Some group →
  config !! "task" = Some (VList (before ++ VDict fields :: after)%list) →
  for_each (register_group_member group yaml_path) (inline_members before) w0
    = (w, Ok tt) →
  dict_of_fields fields !! "task" = Some (VStr t) →
  t ∈ ALL_TASKS w →
  registry_lookup (TASK_REGISTRY w) t = Some task_obj →
  class_of task_obj = Some c →
  load_yaml_config yaml_path (Some (dict_of_fields fields)) = Ok override →
  let base := to_dict (CONFIG c) in
  let synthesized := VStr (py_str group ++ "_" ++ t) in
  let merged := merged_config base override group {["task" := synthesized]} in
  merged !! "task" = Some synthesized ∧
  merged !! "group" = Some group ∧
  (∀ k v, k ≠ "task" → k ≠ "group" → override !! k = Some v →
          merged !! k = Some v) ∧
  (∀ k, k ≠ "task" → k ≠ "group" → override !! k = None →
        merged !! k = base !! k) ∧
  register_group_member group yaml_path (VDict fields) w =
    match check_prompt_config merged (dirname yaml_path) with
    | Ok var_configs =>
        for_each (λ config, register_configurable_task config;; mret tt)
          var_configs w
    | Raise e => (w, Raise e)
    end ∧
  register_configurable_group config yaml_path w0 =
    match check_prompt_config merged (dirname yaml_path) with
    | Ok var_configs =>
        (for_each (λ config, register_configurable_task config;; mret tt)
           var_configs;;
         group_rest group yaml_path (before ++ VDict fields :: after)%list
           after) w
    | Raise e => (w, Raise e)
    end.
Proof.
  intros Hgroup Htask Hbefore Ht Hin Hreg Hc Hload base synthesized merged.
  split; [|split; [|split; [|split; [|split]]]].
  - unfold merged, merged_config. apply lookup_union_Some_l.
    apply lookup_singleton_eq.
  - unfold merged, merged_config.
    rewrite lookup_union_r by (by apply lookup_singleton_ne).
    apply lookup_insert_eq.
  - intros k v Hk1 Hk2 Hov. unfold merged, merged_config.
    rewrite lookup_union_r by (by apply lookup_singleton_ne).
    rewrite lookup_insert_ne by done. by apply lookup_union_Some_l.
  - intros k Hk1 Hk2 Hov. unfold merged, merged_config.
    rewrite lookup_union_r by (by apply lookup_singleton_ne).
    rewrite lookup_insert_ne by done. by apply lookup_union_r.
  - by apply (register_group_member_merged _ _ _ t task_obj).
  - rewrite (register_configurable_group_at config group yaml_path before
               (VDict fields) after w0 w) by done.
    unfold mbind at 1, M_bind at 1.
    rewrite (register_group_member_merged _ _ _ t task_obj c override)
      by done.
    fold base synthesized merged.
    by destruct (check_prompt_config merged (dirname yaml_path)).
Qed.

(** ** What a computation keeps true of the world *)

Lemma preserves_ret {A} P (a : A) : preserves P (mret a).
Proof. by intros w. Qed.

Lemma preserves_raise {A} P e : preserves P (raise (A:=A) e).
Proof. by intros w. Qed.

Lemma preserves_lift {A} P (r : result A) : preserves P (lift r).
Proof. by intros w. Qed.

Lemma preserves_get_world P : preserves P get_world.
Proof. by intros w. Qed.

Lemma preserves_modify P f :
  (∀ w, P w → P (f w)) → preserves P (modify f).
Proof. intros Hf w. apply Hf. Qed.

Lemma preserves_bind {A B} P (m : M A) (f : A → M B) :
  preserves P m → (∀ a, preserves P (f a)) → preserves P (m ≫= f).
Proof.
  intros Hm Hf w Hw. unfold mbind, M_bind. specialize (Hm w Hw).
  destruct (m w) as [w' [a|e]]; simpl in *; [by apply Hf | done].
Qed.

Lemma preserves_for_each {A} P (body : A → M unit) l :
  (∀ x, preserves P (body x)) → preserves P (for_each body l).
Proof.
  intros Hbody. induction l as [|x l IH]; simpl.
  - apply preserves_ret.
  - apply preserves_bind; [apply Hbody | by intros _].
Qed.

(** Steps that settle a goal [preserves P m] along the shape of [m]. *)
Create HintDb pres discriminated.

Ltac preserve :=
  repeat first
    [ solve [auto with pres nocore]
    | apply preserves_ret | apply preserves_raise | apply preserves_lift
    | apply preserves_get_world
    | apply preserves_bind; [|intros ?]
    | apply preserves_for_each; intros ?
    | progress case_match ].

Lemma register_task_known name factory w :
  task_known name (register_task name factory w).1.
Proof.
  split; simpl.
  - rewrite registry_lookup_insert. eauto.
  - sets.
Qed.

Lemma register_task_preserves t name factory :
  preserves (task_known t) (register_task name factory).
Proof.
  apply preserves_modify. intros w [Hr Ha]. split; simpl.
  - by apply registry_insert_is_Some.
  - sets.
Qed.
#[local] Hint Resolve register_task_preserves : pres.

Lemma register_group_preserves t name factory :
  preserves (task_known t) (register_group name factory).
Proof.
  unfold register_group. preserve.
  apply preserves_modify. intros w [Hr Ha]. case_match; split; simpl; try done.
  sets.
Qed.
#[local] Hint Resolve register_group_preserves : pres.

Lemma fresh_id_preserves t : preserves (task_known t) fresh_id.
Proof. by intros w. Qed.
#[local] Hint Resolve fresh_id_preserves : pres.

Lemma eval_logger_preserves t r : preserves (task_known t) (eval_logger r).
Proof. by apply preserves_modify. Qed.
#[local] Hint Resolve eval_logger_preserves : pres.

Lemma register_groups_preserves t config task SubClass :
  preserves (task_known t) (register_groups config task SubClass).
Proof. unfold register_groups. preserve. Qed.
#[local] Hint Resolve register_groups_preserves : pres.

Lemma new_class_preserves t name CONFIG :
  preserves (task_known t) (new_class name CONFIG).
Proof. unfold new_class. preserve. Qed.
#[local] Hint Resolve new_class_preserves : pres.

Lemma register_configurable_task_preserves t config :
  preserves (task_known t) (register_configurable_task config).
Proof.
  unfold register_configurable_task. preserve.
Qed.
#[local] Hint Resolve register_configurable_task_preserves : pres.

Lemma register_group_registered_as t v name factory :
  preserves (registered_as t v) (register_group name factory).
Proof.
  unfold register_group. preserve.
  apply preserves_modify. intros w [Hr Ha]. case_match; split; simpl; try done.
  sets.
Qed.

Lemma register_groups_registered_as t v config task SubClass :
  preserves (registered_as t v) (register_groups config task SubClass).
Proof.
  unfold register_groups. preserve. apply register_group_registered_as.
Qed.

Lemma registered_world_registered_as s config w :
  registered_as s
    (Factory (MkFactory (next_id w) (s ++ "ConfigurableTask")
                (MkTaskConfig config)))
    (registered_world s config w).
Proof.
  split; simpl.
  - apply registry_lookup_insert.
  - sets.
Qed.

(** C9: whenever [register_configurable_task] ends in the collision error,
    the task is already registered: the config names a task [s], and the
    world the failed call leaves holds the new class under [s] in
    [TASK_REGISTRY] and [s] in [ALL_TASKS], whatever was there before. When
    the [task] and [group] fields hold the same string [s] (without a NUL
    character, so that the class can be made) the call does end in the
    collision error, and the world it leaves is the one in which the class
    has been made and registered, and nothing else has been done. *)
Theorem collision_leaves_task_registered (config : Config) (w : world) :
  (∀ w',
     register_configurable_task config w
       = (w', Raise GroupTaskNameCollisionError) →
     ∃ s,
       config !! "task" = Some (VStr s) ∧
       registry_lookup (TASK_REGISTRY w') s =
         Some (Factory (MkFactory (next_id w) (s ++ "ConfigurableTask")
                          (MkTaskConfig config))) ∧
       s ∈ ALL_TASKS w') ∧
  (∀ s,
     config !! "task" = Some (VStr s) →
     config !! "group" = Some (VStr s) →
     has_nul s = false →
     register_configurable_task config w
       = (registered_world s config w, Raise GroupTaskNameCollisionError)).
Proof.
  split; [|intros s; apply register_configurable_task_collision].
  intros w'. unfold register_configurable_task, dict_get.
  destruct (config !! "task") as [[| s | | |]|] eqn:Ht; try by run.
  run. destruct (has_nul s) eqn:Hnul.
  { unfold new_class. by rewrite class_name_nul, Hnul. }
  rewrite new_class_ok by by rewrite class_name_nul.
  pose proof (register_groups_registered_as s _ config (VStr s)
                (MkFactory (next_id w) (s ++ "ConfigurableTask")
                   (MkTaskConfig config))
                _ (registered_world_registered_as s config w)) as Hk.
  unfold register_task. run. fold (registered_world s config w).
  destruct (register_groups _ _ _ (registered_world s config w))
    as [w1 [[]|e]]; [done|].
  intros [= <- _]. exists s. by destruct Hk.
Qed.

Lemma register_group_member_preserves t group yaml_path member :
  preserves (task_known t) (register_group_member group yaml_path member).
Proof.
  unfold register_group_member. preserve.
Qed.
#[local] Hint Resolve register_group_member_preserves : pres.

Lemma link_member_preserves t group task :
  preserves (task_known t) (link_member group task).
Proof.
  unfold link_member. preserve.
  all: apply preserves_modify; intros w [Hr Ha]; split; simpl; [done|].
  all: sets.
Qed.
#[local] Hint Resolve link_member_preserves : pres.

Lemma register_configurable_group_preserves t config yaml_path :
  preserves (task_known t) (register_configurable_group config yaml_path).
Proof.
  unfold register_configurable_group. preserve.
Qed.
#[local] Hint Resolve register_configurable_group_preserves : pres.

Lemma load_definition_preserves t register_task yaml_path :
  preserves (task_known t) (load_definition register_task yaml_path).
Proof.
  unfold load_definition. preserve.
Qed.
#[local] Hint Resolve load_definition_preserves : pres.

(** ** Discovery *)

Lemma register_configurable_task_from config t w :
  config !! "task" = Some (VStr t) →
  has_nul t = false →
  register_configurable_task config w =
    (register_groups config (VStr t)
       (MkFactory (next_id w) (t ++ "ConfigurableTask") (MkTaskConfig config));;
     mret 0) (registered_world t config w).
Proof.
  intros Ht Hnul. unfold register_configurable_task, dict_get. rewrite Ht.
  run. by rewrite new_class_ok by by rewrite class_name_nul.
Qed.

Lemma registered_world_known t config w : task_known t (registered_world t config w).
Proof.
  split; simpl.
  - rewrite registry_lookup_insert. eauto.
  - sets.
Qed.

Lemma register_configurable_task_registers config t w :
  config !! "task" = Some (VStr t) →
  has_nul t = false →
  task_known t (register_configurable_task config w).1.
Proof.
  intros Ht Hnul. rewrite (register_configurable_task_from _ t) by done.
  assert (preserves (task_known t)
            (register_groups config (VStr t)
               (MkFactory (next_id w) (t ++ "ConfigurableTask")
                  (MkTaskConfig config));; mret 0)) as Hp by preserve.
  apply Hp, registered_world_known.
Qed.

(** The configs of a selector all have a string as their task. *)
Lemma variant_configs_tasks config prompt_list cs :
  variant_configs config prompt_list = Ok cs →
  Forall (λ c : Config, ∃ name, c !! "task" = Some (VStr name)) cs.
Proof.
  revert cs. induction prompt_list as [|pv rest IH]; intros cs Hcs.
  { injection Hcs as <-. constructor. }
  simpl in Hcs. unfold variant_config in Hcs.
  destruct (base_task_name config) as [base|]; [|done].
  destruct (variation_name pv) as [short|]; [|done]. simpl in Hcs.
  destruct (variant_configs config rest) as [cs'|]; [|done].
  injection Hcs as <-. constructor; [|by apply IH].
  exists (base ++ "_" ++ short).
  rewrite lookup_insert_ne by done. by rewrite lookup_insert_eq.
Qed.

(** Without a base name there is no config to make. *)
Lemma variant_configs_no_base config prompt_list cs e :
  base_task_name config = Raise e →
  variant_configs config prompt_list = Ok cs →
  cs = [].
Proof.
  intros Hbase Hcs. destruct prompt_list as [|pv rest].
  - by injection Hcs.
  - simpl in Hcs. unfold variant_config in Hcs. by rewrite Hbase in Hcs.
Qed.

Lemma check_prompt_config_variants config yaml_path use_prompt cs :
  config !! "use_prompt" = Some use_prompt →
  check_prompt_config config yaml_path = Ok cs →
  ∃ prompt_list, variant_configs config prompt_list = Ok cs.
Proof.
  intros Hsel Hcs. unfold check_prompt_config in Hcs. rewrite Hsel in Hcs.
  destruct (dict_get config "dataset_path") as [dataset_path|]; [|done].
  simpl in Hcs.
  destruct (load_prompt_list _ _ _ _) as [prompt_list|]; [|done].
  by exists prompt_list.
Qed.

(** A definition whose [task] field is not of the kind the pass looks for
    is left alone by the pass: nothing is registered for it. *)
Lemma load_definition_other_kind (register_task : bool) yaml_path config v w :
  load_yaml_config yaml_path None = Ok config →
  config !! "task" = Some v →
  (if register_task then is_str v else is_list v) = false →
  (load_definition register_task yaml_path w).1 = w ∧
  (config !! "use_prompt" = None →
   load_definition register_task yaml_path w = (w, Ok tt)).
Proof.
  intros Hload Hv Hkind.
  assert (config !! "use_prompt" = None →
          load_definition register_task yaml_path w = (w, Ok tt)) as Hplain.
  { intros Hsel. unfold load_definition, check_prompt_config, dict_get.
    rewrite Hload. run. rewrite bool_decide_true by (rewrite Hv; eauto).
    rewrite Hsel. simpl. rewrite Hv. run.
    by destruct register_task; rewrite Hkind. }
  split; [|done].
  destruct (config !! "use_prompt") as [use_prompt|] eqn:Hsel;
    [|by rewrite Hplain].
  unfold load_definition. rewrite Hload. run.
  rewrite bool_decide_true by (rewrite Hv; eauto).
  destruct (check_prompt_config config (dirname yaml_path)) as [cs|e] eqn:Hcs;
    [|done].
  destruct (check_prompt_config_variants _ _ _ _ Hsel Hcs)
    as [prompt_list Hvar].
  destruct register_task.
  - rewrite (variant_configs_no_base config prompt_list cs TypeError);
      [done| |done].
    unfold base_task_name. rewrite Hv. by destruct v.
  - apply variant_configs_tasks in Hvar. clear Hcs.
    induction Hvar as [|c cs [name Hname] _ IH]; [done|].
    simpl. unfold dict_get. rewrite Hname. run. apply IH.
Qed.

(** A file that defines a task has the task registered by the first pass,
    whether or not the rest of the file's registration fails. *)
Lemma load_definition_registers yaml_path t w :
  file_defines_task yaml_path t →
  task_known t (load_definition true yaml_path w).1.
Proof.
  intros (config & task & before & c & after & Hload & Htask & Hcheck & Hc &
          Hnul & Hbefore).
  unfold load_definition. rewrite Hload. run.
  rewrite bool_decide_true by (rewrite Htask; eauto). rewrite Hcheck.
  match goal with
  | |- context [for_each ?b _] => set (body := b)
  end.
  rewrite for_each_app. unfold mbind, M_bind.
  assert (Forall (λ x, ∀ w, (body x w).2 = Ok tt) before) as Hret.
  { eapply Forall_impl; [exact Hbefore|]. intros c' Hc' w'.
    specialize (Hc' w'). unfold body, dict_get.
    destruct (c' !! "task") as [v|] eqn:Hv.
    - run. destruct (is_str v); [|done].
      by destruct (register_configurable_task c' w') as [w1 [n|e]].
    - unfold register_configurable_task, dict_get in Hc'.
      by rewrite Hv in Hc'. }
  pose proof (for_each_returns body before Hret w) as Hrun.
  destruct (for_each body before w) as [w1 r]. simpl in Hrun. subst r.
  simpl. unfold mbind, M_bind.
  pose proof (register_configurable_task_registers c t w1 Hc Hnul) as Hk.
  assert (preserves (task_known t) (for_each body after)) as Hafter.
  { apply preserves_for_each. intros c'. unfold body. preserve. }
  unfold body at 1. unfold dict_get. rewrite Hc. run.
  destruct (register_configurable_task c w1) as [w2 [n|e]]; [|done].
  by apply Hafter.
Qed.

Lemma include_yaml_returns register_task yaml_path import_fail w :
  ∃ import_fail',
    (include_yaml register_task yaml_path import_fail w).2 = Ok import_fail'.
Proof.
  unfold include_yaml.
  destruct (load_definition register_task yaml_path w) as [w' [[]|e]];
    [eauto|]. destruct (is_import_error e); eauto.
Qed.

Lemma include_yaml_preserves t register_task yaml_path import_fail :
  preserves (task_known t) (include_yaml register_task yaml_path import_fail).
Proof.
  intros w Hw. unfold include_yaml.
  pose proof (load_definition_preserves t register_task yaml_path w Hw) as H.
  destruct (load_definition register_task yaml_path w) as [w' [[]|e]];
    [done|]. by destruct (is_import_error e).
Qed.
#[local] Hint Resolve include_yaml_preserves : pres.

Lemma walk_files_returns register_task root file_list import_fail w :
  ∃ import_fail',
    (walk_files register_task root file_list import_fail w).2
      = Ok import_fail'.
Proof.
  revert import_fail w.
  induction file_list as [|f rest IH]; intros import_fail w; simpl.
  - eauto.
  - unfold mbind, M_bind. destruct (endswith f ".yaml").
    + destruct (include_yaml_returns register_task (path_join root f)
                  import_fail w) as [b Hb].
      destruct (include_yaml _ _ _ w) as [w' r]. simpl in Hb. subst r.
      apply IH.
    + apply IH.
Qed.

Lemma walk_files_preserves t register_task root file_list import_fail :
  preserves (task_known t)
    (walk_files register_task root file_list import_fail).
Proof.
  revert import_fail. induction file_list as [|f rest IH];
    intros import_fail; simpl; preserve.
Qed.
#[local] Hint Resolve walk_files_preserves : pres.

Lemma walk_dirs_returns register_task walk_list import_fail w :
  ∃ import_fail',
    (walk_dirs register_task walk_list import_fail w).2 = Ok import_fail'.
Proof.
  revert import_fail w.
  induction walk_list as [|[[root subdirs] file_list] rest IH];
    intros import_fail w; simpl.
  - eauto.
  - unfold mbind, M_bind.
    destruct (walk_files_returns register_task root file_list import_fail w)
      as [b Hb].
    destruct (walk_files _ _ _ _ w) as [w' r]. simpl in Hb. subst r.
    apply IH.
Qed.

Lemma walk_dirs_preserves t register_task walk_list import_fail :
  preserves (task_known t) (walk_dirs register_task walk_list import_fail).
Proof.
  revert import_fail.
  induction walk_list as [|[[root subdirs] file_list] rest IH];
    intros import_fail; simpl; preserve.
Qed.
#[local] Hint Resolve walk_dirs_preserves : pres.

Lemma include_task_folder_preserves t task_dir register_task :
  preserves (task_known t) (include_task_folder task_dir register_task).
Proof. unfold include_task_folder. preserve. Qed.


(** The walk is the run over the definition files it meets. *)
Lemma run_definitions_app register_task l1 l2 w :
  run_definitions register_task (l1 ++ l2)%list w =
    let first := run_definitions register_task l1 w in
    let second := run_definitions register_task l2 first.1 in
    (second.1, (first.2 ++ second.2)%list).
Proof.
  revert w. induction l1 as [|yaml_path l1 IH]; intros w; simpl.
  - by destruct (run_definitions register_task l2 w).
  - destruct (load_definition register_task yaml_path w) as [w1 [[]|e]].
    + apply IH.
    + by rewrite IH.
Qed.

Lemma failed_imports_app l1 l2 :
  failed_imports (l1 ++ l2)%list = failed_imports l1 || failed_imports l2.
Proof. apply existsb_app. Qed.

Lemma walk_files_run register_task root file_list import_fail w :
  walk_files register_task root file_list import_fail w =
    let run :=
      run_definitions register_task
        (path_join root <$> filter (λ f, endswith f ".yaml" = true) file_list)
        w in
    (run.1, Ok (import_fail || failed_imports run.2)).
Proof.
  revert import_fail w.
  induction file_list as [|f rest IH]; intros import_fail w.
  { simpl. by rewrite orb_false_r. }
  simpl. unfold mbind, M_bind. destruct (endswith f ".yaml") eqn:Hyaml.
  - rewrite filter_cons, decide_True by done. csimpl.
    unfold include_yaml.
    destruct (load_definition register_task (path_join root f) w)
      as [w1 [[]|e]].
    + apply IH.
    + unfold failure_record.
      destruct (is_import_error e) eqn:He; rewrite IH; simpl; rewrite He.
      * by rewrite orb_true_r.
      * done.
  - rewrite filter_cons, decide_False by (by rewrite Hyaml). apply IH.
Qed.

Lemma walk_dirs_run register_task walk_list import_fail w :
  walk_dirs register_task walk_list import_fail w =
    let run :=
      run_definitions register_task (definition_paths walk_list) w in
    (run.1, Ok (import_fail || failed_imports run.2)).
Proof.
  revert import_fail w.
  induction walk_list as [|[[root subdirs] file_list] rest IH];
    intros import_fail w.
  { simpl. by rewrite orb_false_r. }
  simpl. unfold mbind, M_bind. rewrite walk_files_run. simpl.
  rewrite IH. unfold definition_paths. csimpl.
  rewrite run_definitions_app. simpl.
  by rewrite failed_imports_app, orb_assoc.
Qed.

Lemma include_task_folder_run task_dir register_task w :
  include_task_folder task_dir register_task w =
    let run :=
      run_definitions register_task (definition_paths (os_walk task_dir)) w in
    (if failed_imports run.2 then add_log WarningMissingDependencies run.1
     else run.1,
     Ok 0).
Proof.
  unfold include_task_folder, mbind, M_bind. rewrite walk_dirs_run. simpl.
  by destruct (failed_imports _).
Qed.


Lemma include_yaml_registers yaml_path t import_fail w :
  file_defines_task yaml_path t →
  task_known t (include_yaml true yaml_path import_fail w).1.
Proof.
  intros Hdef. unfold include_yaml.
  pose proof (load_definition_registers yaml_path t w Hdef) as Hk.
  destruct (load_definition true yaml_path w) as [w' [[]|e]]; [done|].
  by destruct (is_import_error e).
Qed.

Lemma walk_files_registers root file_list f t import_fail w :
  f ∈ file_list →
  endswith f ".yaml" = true →
  file_defines_task (path_join root f) t →
  task_known t (walk_files true root file_list import_fail w).1.
Proof.
  intros Hin Hyaml Hdef. revert import_fail w.
  induction file_list as [|f' rest IH]; intros import_fail w.
  - by apply elem_of_nil in Hin.
  - simpl. unfold mbind, M_bind.
    apply elem_of_cons in Hin as [<-|Hin].
    + rewrite Hyaml.
      pose proof (include_yaml_registers _ t import_fail w Hdef) as Hk.
      destruct (include_yaml true (path_join root f) import_fail w)
        as [w' [b|e]]; [|done].
      by apply walk_files_preserves.
    + destruct (if endswith f' ".yaml" then _ else _) as [w' [b|e]] eqn:Hstep.
      * by apply IH.
      * destruct (endswith f' ".yaml"); [|done].
        destruct (include_yaml_returns true (path_join root f') import_fail w)
          as [b Hb]. by rewrite Hstep in Hb.
Qed.

Lemma walk_dirs_registers walk_list t import_fail w :
  defines_task walk_list t →
  task_known t (walk_dirs true walk_list import_fail w).1.
Proof.
  intros (root & subdirs & file_list & f & Hdir & Hf & Hyaml & Hdef).
  revert import_fail w.
  induction walk_list as [|[[root' subdirs'] file_list'] rest IH];
    intros import_fail w.
  - by apply elem_of_nil in Hdir.
  - simpl. unfold mbind, M_bind.
    destruct (walk_files_returns true root' file_list' import_fail w)
      as [b Hb].
    apply elem_of_cons in Hdir as [Heq|Hdir].
    + injection Heq as <- <- <-.
      pose proof (walk_files_registers root file_list f t import_fail
                    w Hf Hyaml Hdef) as Hk.
      destruct (walk_files true root file_list import_fail w) as [w' r].
      simpl in Hb. subst r. by apply walk_dirs_preserves.
    + destruct (walk_files true root' file_list' import_fail w) as [w' r].
      simpl in Hb. subst r. by apply IH.
Qed.

Lemma walk_files_app register_task root l1 l2 import_fail w :
  walk_files register_task root (l1 ++ l2)%list import_fail w =
    match walk_files register_task root l1 import_fail w with
    | (w', Ok import_fail') => walk_files register_task root l2 import_fail' w'
    | (w', Raise e) => (w', Raise e)
    end.
Proof.
  revert import_fail w. induction l1 as [|f l1 IH]; intros import_fail w.
  - done.
  - simpl. unfold mbind, M_bind.
    by destruct (if endswith f ".yaml" then _ else _) as [w' [b|e]].
Qed.

Lemma walk_dirs_app register_task l1 l2 import_fail w :
  walk_dirs register_task (l1 ++ l2)%list import_fail w =
    match walk_dirs register_task l1 import_fail w with
    | (w', Ok import_fail') => walk_dirs register_task l2 import_fail' w'
    | (w', Raise e) => (w', Raise e)
    end.
Proof.
  revert import_fail w.
  induction l1 as [|[[root subdirs] file_list] l1 IH]; intros import_fail w.
  - done.
  - simpl. unfold mbind, M_bind.
    by destruct (walk_files _ _ _ _ w) as [w' [b|e]].
Qed.

(** The second pass reaches every file of the walk: the run of the pass is
    the run from the file on, started in a world that keeps the registered
    tasks of the world the pass started in. *)
Lemma second_pass_reaches t pre root subdirs files1 f files2 post w1 :
  task_known t w1 →
  ∃ w2 import_fail,
    task_known t w2 ∧
    walk_dirs false
      (pre ++ (root, subdirs, (files1 ++ f :: files2)%list) :: post)%list
      false w1 =
      (import_fail ← walk_files false root (f :: files2) import_fail;
       walk_dirs false post import_fail) w2.
Proof.
  intros Hk.
  destruct (walk_dirs_returns false pre false w1) as [b1 Hb1].
  pose proof (walk_dirs_preserves t false pre false w1 Hk) as Hk1.
  destruct (walk_dirs false pre false w1) as [wa r] eqn:Hpre.
  simpl in Hb1, Hk1. subst r.
  destruct (walk_files_returns false root files1 b1 wa) as [b2 Hb2].
  pose proof (walk_files_preserves t false root files1 b1 wa Hk1) as Hk2.
  destruct (walk_files false root files1 b1 wa) as [w2 r] eqn:Hfiles.
  simpl in Hb2, Hk2. subst r.
  exists w2, b2. split; [done|].
  rewrite walk_dirs_app, Hpre.
  change (walk_dirs false ((root, subdirs, (files1 ++ f :: files2)%list)
                             :: post) b1 wa)
    with ((import_fail ← walk_files false root (files1 ++ f :: files2)%list b1;
           walk_dirs false post import_fail) wa).
  unfold mbind, M_bind. by rewrite walk_files_app, Hfiles.
Qed.

(** C2 (amended): when the registries are not restored from the cache,
    [include_path] runs the walk twice over the same directory, first
    registering tasks and then groups, and saves the registries afterwards
    when asked to. A definition is left alone by the first pass when its
    [task] field is not a string and by the second pass when it is not a
    sequence: the pass registers nothing for it, with or without a prompt
    selector. Every task defined by a file of the directory (the task of a
    definition with a string in its [task] field or, with a prompt
    selector, of a config it expands to, when a class can be made for the
    name and the configs before it register) is registered once the first
    pass is over and is still registered in the world in which the second
    pass reaches any file of the walk, in whatever order the walk lists
    directories and files. *)
Theorem two_pass_discovery (task_dir : string)
    (use_cache rewrite_cache : bool) (w : world) :
  negb rewrite_cache && caches_exist w = false →
  include_path task_dir use_cache rewrite_cache w =
    (include_task_folder task_dir true;;
     include_task_folder task_dir false;;
     if use_cache && (negb (caches_exist w) || rewrite_cache)
     then save_registries_to_cache
     else mret tt) w ∧
  (∀ (register_task : bool) yaml_path config v w0,
     load_yaml_config yaml_path None = Ok config →
     config !! "task" = Some v →
     (if register_task then is_str v else is_list v) = false →
     (load_definition register_task yaml_path w0).1 = w0 ∧
     (config !! "use_prompt" = None →
      load_definition register_task yaml_path w0 = (w0, Ok tt))) ∧
  (∀ t,
     defines_task (os_walk task_dir) t →
     let w1 := (include_task_folder task_dir true w).1 in
     task_known t w1 ∧
     ∀ pre root subdirs files1 f files2 post,
       os_walk task_dir =
         (pre ++ (root, subdirs, (files1 ++ f :: files2)%list) :: post)%list →
       ∃ w2 import_fail,
         task_known t w2 ∧
         walk_dirs false (os_walk task_dir) false w1 =
           (import_fail ← walk_files false root (f :: files2) import_fail;
            walk_dirs false post import_fail) w2).
Proof.
  intros Hcache. split; [|split].
  - unfold include_path. run. by rewrite Hcache.
  - intros register_task yaml_path config v w0.
    apply load_definition_other_kind.
  - intros t Hdef w1.
    assert (task_known t w1) as Hk.
    { unfold w1, include_task_folder, mbind, M_bind.
      pose proof (walk_dirs_registers (os_walk task_dir) t false w Hdef)
        as Hk.
      destruct (walk_dirs true (os_walk task_dir) false w) as [w' [b|e]];
        [|done]. by destruct b. }
    split; [done|].
    intros pre root subdirs files1 f files2 post ->.
    by apply second_pass_reaches.
Qed.

(** ** Resolution *)

(** C7: when [get_task_dict] returns, the names resolved from live task
    objects are disjoint from the names resolved through the registry, and
    the result is the merge of the three mappings of the loop; when the loop
    ends with a name in both sets, [get_task_dict] raises [AssertionError]
    and returns nothing. *)
Theorem resolution_disjointness (depth : nat) (task_name_list : task_request)
    (kwargs : Config) (w w' : world) :
  (∀ result,
     get_task_dict (S depth) task_name_list kwargs w = (w', Ok result) →
     ∃ acc,
       resolve_elements (get_task_dict depth) kwargs (as_list task_name_list)
         (MkResolution ∅ ∅ ∅) w = (w', Ok acc) ∧
       dom (task_name_from_registry_dict acc) ##
         dom (task_name_from_object_dict acc) ∧
       result = task_name_from_object_dict acc ∪
                (task_name_from_config_dict acc ∪
                 task_name_from_registry_dict acc)) ∧
  (∀ acc name,
     resolve_elements (get_task_dict depth) kwargs (as_list task_name_list)
       (MkResolution ∅ ∅ ∅) w = (w', Ok acc) →
     name ∈ dom (task_name_from_registry_dict acc) →
     name ∈ dom (task_name_from_object_dict acc) →
     get_task_dict (S depth) task_name_list kwargs w
       = (w', Raise AssertionError)).
Proof.
  split.
  - intros result Hres. simpl in Hres. unfold mbind, M_bind in Hres.
    destruct (resolve_elements _ _ _ _ w) as [w1 [acc|e]]; [|done].
    unfold finish, mret, M_ret, raise in Hres.
    case_bool_decide as Hdisj; [|done].
    injection Hres as <- <-. exists acc.
    split; [reflexivity|]. split; [exact Hdisj|reflexivity].
  - intros acc name Hloop Hreg Hobj. simpl. unfold mbind, M_bind.
    rewrite Hloop. unfold finish.
    rewrite bool_decide_false; [done|]. sets.
Qed.

(** *** The caller's dictionaries

    Resolving names leaves the heap alone. *)

Lemma load_from_cache_heap h file_name :
  preserves (heap_is h) (load_from_cache file_name).
Proof. by intros w. Qed.

Lemma save_to_cache_heap h file_name obj :
  preserves (heap_is h) (save_to_cache file_name obj).
Proof. by apply preserves_modify. Qed.

Lemma fresh_id_heap h : preserves (heap_is h) fresh_id.
Proof. by intros w. Qed.

Lemma eval_logger_heap h r : preserves (heap_is h) (eval_logger r).
Proof. by apply preserves_modify. Qed.
#[local] Hint Resolve load_from_cache_heap save_to_cache_heap fresh_id_heap
  eval_logger_heap : pres.

Lemma get_task_heap h task_name config :
  preserves (heap_is h) (get_task task_name config).
Proof. unfold get_task, call_factory. preserve. Qed.
#[local] Hint Resolve get_task_heap : pres.

Lemma resolve_task_heap h task_name config registry_dict :
  preserves (heap_is h) (resolve_task task_name config registry_dict).
Proof. unfold resolve_task. preserve. Qed.

Lemma resolve_group_heap h recurse group_name members registry_dict :
  (∀ name config, preserves (heap_is h) (recurse (ROne (EName name)) config)) →
  preserves (heap_is h)
    (resolve_group recurse group_name members registry_dict).
Proof.
  intros Hrec. revert registry_dict.
  induction members as [|task_name rest IH]; intros registry_dict; simpl;
    preserve.
Qed.
#[local] Hint Resolve resolve_task_heap resolve_group_heap : pres.

Lemma ConfigurableTask_heap h config :
  preserves (heap_is h) (ConfigurableTask config).
Proof. unfold ConfigurableTask. preserve. Qed.
#[local] Hint Resolve ConfigurableTask_heap : pres.

Lemma resolve_name_heap h recurse config name acc :
  (∀ name config, preserves (heap_is h) (recurse (ROne (EName name)) config)) →
  preserves (heap_is h) (resolve_element recurse config (EName name) acc).
Proof. intros Hrec. unfold resolve_element. preserve. Qed.

(** What [resolve_dict] does to the caller's dictionary, whether the task is
    then built or the derivation of its name fails. *)
Lemma resolve_dict_heap address config config_dict w old :
  heap w !! address = Some old →
  heap (resolve_dict address config config_dict w).1
    = <[address := config ∪ old]> (heap w).
Proof.
  intros Hold. unfold resolve_dict. run. rewrite Hold. simpl.
  by destruct (get_task_name_from_config (config ∪ old)).
Qed.

Lemma resolve_element_heap recurse config task_element acc w w1 acc1
    address old :
  (∀ h name config,
     preserves (heap_is h) (recurse (ROne (EName name)) config)) →
  resolve_element recurse config task_element acc w = (w1, Ok acc1) →
  heap w !! address = Some old →
  heap w1 !! address = Some old ∧ task_element ≠ EDict address ∨
  heap w1 !! address = Some (config ∪ old).
Proof.
  intros Hrec Hstep Hold. destruct task_element as [name|a|task_object|].
  - left. split; [|done].
    pose proof (resolve_name_heap (heap w) recurse config name acc
                  (Hrec (heap w)) w eq_refl) as Hh.
    rewrite Hstep in Hh. unfold heap_is in Hh. simpl in Hh. by rewrite Hh.
  - simpl in Hstep. unfold mbind, M_bind in Hstep.
    destruct (heap w !! a) as [te|] eqn:Hte.
    + pose proof (resolve_dict_heap a config (task_name_from_config_dict acc)
                    w te Hte) as Hh.
      destruct (resolve_dict a config _ w) as [w2 [cd|e]]; [|done].
      injection Hstep as <- _. simpl in Hh. rewrite Hh.
      destruct (decide (a = address)) as [->|Hne].
      * right. rewrite lookup_insert_eq. congruence.
      * left. rewrite lookup_insert_ne by done. split; congruence.
    + unfold resolve_dict, mbind, M_bind, get_world, raise in Hstep.
      rewrite Hte in Hstep. done.
  - left. simpl in Hstep. injection Hstep as <- _. done.
  - left. simpl in Hstep. injection Hstep as <- _. done.
Qed.

Lemma union_twice (config old : Config) :
  config ∪ (config ∪ old) = config ∪ old.
Proof. by rewrite (assoc_L (∪)), (idemp_L (∪)). Qed.

Lemma resolve_elements_heap_weak recurse config task_name_list acc w w' acc'
    address old :
  (∀ h name config,
     preserves (heap_is h) (recurse (ROne (EName name)) config)) →
  resolve_elements recurse config task_name_list acc w = (w', Ok acc') →
  heap w !! address = Some old →
  heap w' !! address = Some old ∨ heap w' !! address = Some (config ∪ old).
Proof.
  intros Hrec. revert acc w old.
  induction task_name_list as [|e rest IH]; intros acc w old Hloop Hold.
  - simpl in Hloop. injection Hloop as <- _. by left.
  - simpl in Hloop. unfold mbind, M_bind in Hloop.
    destruct (resolve_element recurse config e acc w) as [w1 [acc1|err]]
      eqn:Hstep; [|done].
    destruct (resolve_element_heap _ _ _ _ _ _ _ address old Hrec Hstep Hold)
      as [[H1 _]|H1].
    + by apply (IH acc1 w1).
    + right. destruct (IH acc1 w1 _ Hloop H1) as [H2|H2]; [done|].
      by rewrite union_twice in H2.
Qed.

Lemma resolve_elements_heap recurse config task_name_list acc w w' acc'
    address old :
  (∀ h name config,
     preserves (heap_is h) (recurse (ROne (EName name)) config)) →
  resolve_elements recurse config task_name_list acc w = (w', Ok acc') →
  EDict address ∈ task_name_list →
  heap w !! address = Some old →
  heap w' !! address = Some (config ∪ old).
Proof.
  intros Hrec. revert acc w old.
  induction task_name_list as [|e rest IH]; intros acc w old Hloop Hin Hold.
  - by apply elem_of_nil in Hin.
  - simpl in Hloop. unfold mbind, M_bind in Hloop.
    destruct (resolve_element recurse config e acc w) as [w1 [acc1|err]]
      eqn:Hstep; [|done].
    destruct (resolve_element_heap _ _ _ _ _ _ _ address old Hrec Hstep Hold)
      as [[H1 Hne]|H1].
    + apply elem_of_cons in Hin as [Heq|Hin]; [by subst e|].
      by apply (IH acc1 w1).
    + destruct (resolve_elements_heap_weak _ _ _ _ _ _ _ address _ Hrec
                  Hloop H1) as [H2|H2]; [done|].
      by rewrite union_twice in H2.
Qed.

Lemma finish_heap h acc : preserves (heap_is h) (finish acc).
Proof. unfold finish. preserve. Qed.
#[local] Hint Resolve finish_heap : pres.

Lemma get_task_dict_name_heap h depth name config :
  preserves (heap_is h) (get_task_dict depth (ROne (EName name)) config).
Proof.
  revert name config. induction depth as [|depth IH]; intros name config.
  - apply preserves_raise.
  - simpl. preserve.
Qed.

(** C10: for a request element that is a dictionary of the caller,
    [get_task_dict] writes the overrides into that very dictionary, before
    the name is derived and the task is built and whether or not these then
    succeed: after the element is handled the caller's dictionary holds the
    overrides on top of its former fields. When [get_task_dict] returns,
    every dictionary of the request holds the merged overrides. *)
Theorem inline_config_mutated_in_place (kwargs : Config) :
  (∀ address config_dict w old,
     heap w !! address = Some old →
     heap (resolve_dict address kwargs config_dict w).1 !! address
       = Some (kwargs ∪ old)) ∧
  (∀ depth task_name_list w w' result address old,
     get_task_dict depth task_name_list kwargs w = (w', Ok result) →
     EDict address ∈ as_list task_name_list →
     heap w !! address = Some old →
     heap w' !! address = Some (kwargs ∪ old)).
Proof.
  split.
  - intros address config_dict w old Hold.
    rewrite (resolve_dict_heap _ _ _ _ old) by done.
    apply lookup_insert_eq.
  - intros [|depth] task_name_list w w' result address old Hres Hin Hold;
      [done|].
    simpl in Hres. unfold mbind, M_bind in Hres.
    destruct (resolve_elements _ _ _ _ w) as [w1 [acc|e]] eqn:Hloop; [|done].
    assert (heap w1 !! address = Some (kwargs ∪ old)) as H1.
    { eapply resolve_elements_heap; [|done..].
      intros h name config. apply get_task_dict_name_heap. }
    pose proof (finish_heap (heap w1) acc w1 eq_refl) as Hf.
    rewrite Hres in Hf. unfold heap_is in Hf. simpl in Hf. by rewrite Hf.
Qed.

(** *** Names, groups and the cache *)

Lemma get_task_dict_S depth task_name_list kwargs :
  get_task_dict (S depth) task_name_list kwargs =
    (acc ← resolve_elements (get_task_dict depth) kwargs
             (as_list task_name_list) (MkResolution ∅ ∅ ∅);
     finish acc).
Proof. reflexivity. Qed.

(** A miss: the task is built and the mapping built so far, with the new
    entry, is saved under the key of the name. *)
Lemma resolve_task_miss task_name c config registry_dict w :
  registry_dict !! task_name = None →
  registry_lookup (TASK_REGISTRY w) task_name = Some (Factory c) →
  dom (default ∅ (raw (cache w) !! ("raw-" ++ task_name))) = ∅ →
  resolve_task task_name config registry_dict w =
    let saved := <[task_name := EInst (new_task c config w)]> registry_dict in
    ((save_to_cache ("raw-" ++ task_name) saved
        (set_next_id (S (next_id w)) w)).1,
     Ok saved).
Proof.
  intros Hacc Hreg Hcache. unfold resolve_task, load_from_cache, get_task.
  rewrite bool_decide_false by (rewrite Hacc; by intros [? ?]).
  run. rewrite bool_decide_false by (by intros []). by rewrite Hreg.
Qed.

(** A hit: the cached mapping is merged in; no task is built and nothing is
    saved. *)
Lemma resolve_task_hit task_name config registry_dict cached w :
  registry_dict !! task_name = None →
  raw (cache w) !! ("raw-" ++ task_name) = Some cached →
  dom cached ≠ ∅ →
  resolve_task task_name config registry_dict w
    = (w, Ok (cached ∪ registry_dict)).
Proof.
  intros Hacc Hcache Hdom. unfold resolve_task, load_from_cache.
  rewrite bool_decide_false by (rewrite Hacc; by intros [? ?]).
  run. rewrite Hcache. simpl. by rewrite bool_decide_true.
Qed.

Lemma get_task_dict_plain_task depth task_name c config w :
  GROUP_REGISTRY w !! task_name = None →
  registry_lookup (TASK_REGISTRY w) task_name = Some (Factory c) →
  raw (cache w) !! ("raw-" ++ task_name) = None →
  get_task_dict (S depth) (ROne (EName task_name)) config w =
    (world_after_task task_name c config w,
     Ok {[task_name := EInst (new_task c config w)]}).
Proof.
  intros Hgroup Hreg Hcache. rewrite get_task_dict_S.
  unfold as_list, resolve_elements, resolve_element.
  unfold mbind at 1 2 3, M_bind at 1 2 3, get_world. rewrite Hgroup.
  unfold mbind, M_bind.
  rewrite (resolve_task_miss task_name c) by
    (simpl; rewrite ?Hcache; done || sets).
  simpl. unfold finish. simpl.
  rewrite bool_decide_true by sets.
  unfold mret, M_ret, world_after_task. f_equal. f_equal.
  rewrite !(left_id_L ∅ (∪)). by rewrite insert_empty.
Qed.

Lemma raw_key_inj a b : "raw-" ++ a = "raw-" ++ b → a = b.
Proof. intros H. cbv [String.append] in H. by injection H. Qed.

Lemma bind_ok {A B} (m : M A) (f : A → M B) w w1 a :
  m w = (w1, Ok a) → (m ≫= f) w = f a w1.
Proof. intros H. unfold mbind, M_bind. by rewrite H. Qed.

Lemma resolve_elements_cons recurse config task_element rest acc :
  resolve_elements recurse config (task_element :: rest) acc =
    (acc ← resolve_element recurse config task_element acc;
     resolve_elements recurse config rest acc).
Proof. reflexivity. Qed.

Lemma resolve_element_group recurse kwargs g members acc w :
  GROUP_REGISTRY w !! g = Some members →
  resolve_element recurse kwargs (EName g) acc w =
    (registry_dict ←
       resolve_group recurse g members (task_name_from_registry_dict acc);
     mret (MkResolution registry_dict (task_name_from_config_dict acc)
             (task_name_from_object_dict acc))) w.
Proof.
  intros Hg. unfold resolve_element.
  unfold mbind at 1, M_bind at 1, get_world. by rewrite Hg.
Qed.

Lemma resolve_group_skip recurse g name rest (registry_dict : task_dict) :
  is_Some (registry_dict !! name) →
  resolve_group recurse g (name :: rest) registry_dict
    = resolve_group recurse g rest registry_dict.
Proof. intros Hin. simpl. by rewrite bool_decide_true. Qed.

Lemma resolve_group_member recurse g name rest (registry_dict : task_dict)
    w w1 task_obj :
  registry_dict !! name = None →
  recurse (ROne (EName name)) ∅ w = (w1, Ok task_obj) →
  resolve_group recurse g (name :: rest) registry_dict w =
    resolve_group recurse g rest
      (match task_obj !! name with
       | Some e => <[name := EPair g e]> registry_dict
       | None => task_obj ∪ <[name := EPair g ENone]> registry_dict
       end) w1.
Proof.
  intros Hnot Hrec. simpl.
  rewrite bool_decide_false by (rewrite Hnot; by intros [? ?]).
  unfold mbind, M_bind. rewrite Hrec. unfold mret, M_ret.
  destruct (task_obj !! name) as [e|].
  - by rewrite insert_union_singleton_l.
  - by rewrite <-(assoc_L (∪)), <-insert_union_singleton_l.
Qed.

(** C1 (amended): an element that names a group is resolved member by
    member. A member already in the mapping built so far is skipped. A
    member not yet in it is resolved by a recursive call without overrides:
    when the call's result has the member's own name, the member is recorded
    as [(group_name, that value)]; otherwise it is recorded as
    [(group_name, None)] and the other entries of the call's result are
    merged in over the entries recorded before. For a group [g] of two
    different tasks [a] and [b] that are no groups themselves and have
    nothing cached, [get_task_dict([g])] returns exactly the two entries
    [a ↦ (g, instance of a)] and [b ↦ (g, instance of b)]. *)
Theorem group_resolution :
  (∀ recurse kwargs g members acc w,
     GROUP_REGISTRY w !! g = Some members →
     resolve_element recurse kwargs (EName g) acc w =
       (registry_dict ←
          resolve_group recurse g members (task_name_from_registry_dict acc);
        mret (MkResolution registry_dict (task_name_from_config_dict acc)
                (task_name_from_object_dict acc))) w) ∧
  (∀ recurse g name rest (registry_dict : task_dict),
     is_Some (registry_dict !! name) →
     resolve_group recurse g (name :: rest) registry_dict
       = resolve_group recurse g rest registry_dict) ∧
  (∀ recurse g name rest (registry_dict : task_dict) w w1 task_obj,
     registry_dict !! name = None →
     recurse (ROne (EName name)) ∅ w = (w1, Ok task_obj) →
     resolve_group recurse g (name :: rest) registry_dict w =
       resolve_group recurse g rest
         (match task_obj !! name with
          | Some e => <[name := EPair g e]> registry_dict
          | None => task_obj ∪ <[name := EPair g ENone]> registry_dict
          end) w1) ∧
  (∀ depth g a b ca cb kwargs w,
     a ≠ b →
     GROUP_REGISTRY w !! g = Some [a; b] →
     GROUP_REGISTRY w !! a = None →
     GROUP_REGISTRY w !! b = None →
     registry_lookup (TASK_REGISTRY w) a = Some (Factory ca) →
     registry_lookup (TASK_REGISTRY w) b = Some (Factory cb) →
     raw (cache w) !! ("raw-" ++ a) = None →
     raw (cache w) !! ("raw-" ++ b) = None →
     (get_task_dict (S (S depth)) (RList [EName g]) kwargs w).2 =
       Ok {[ a := EPair g (EInst (MkTask (next_id w) (class_name ca) None
                                    (Some (CONFIG ca)) ∅));
             b := EPair g (EInst (MkTask (S (next_id w)) (class_name cb) None
                                    (Some (CONFIG cb)) ∅)) ]}).
Proof.
  split; [|split; [|split]].
  - apply resolve_element_group.
  - apply resolve_group_skip.
  - apply resolve_group_member.
  - intros depth g a b ca cb kwargs w Hab Hg Ha Hb Hca Hcb Hcache_a Hcache_b.
    set (ta := EInst (new_task ca ∅ w)).
    set (wa := world_after_task a ca ∅ w).
    set (tb := EInst (new_task cb ∅ wa)).
    assert (resolve_group (get_task_dict (S depth)) g [a; b] ∅ w =
              (world_after_task b cb ∅ wa,
               Ok (<[b := EPair g tb]> (<[a := EPair g ta]> ∅)))) as Hgroup.
    { rewrite (resolve_group_member _ g a [b] ∅ w wa {[a := ta]});
        [|done|by apply get_task_dict_plain_task].
      rewrite lookup_singleton_eq.
      rewrite (resolve_group_member _ g b [] _ wa (world_after_task b cb ∅ wa)
                 {[b := tb]}).
      - by rewrite lookup_singleton_eq.
      - by rewrite lookup_insert_ne.
      - apply get_task_dict_plain_task; [done|done|].
        simpl. rewrite lookup_insert_ne; [done|].
        intros Heq. by apply Hab, raw_key_inj. }
    rewrite get_task_dict_S. unfold as_list.
    erewrite bind_ok; last first.
    { rewrite resolve_elements_cons. erewrite bind_ok; [reflexivity|].
      rewrite (resolve_element_group _ _ g [a; b]) by done.
      erewrite bind_ok; [reflexivity|]. exact Hgroup. }
    unfold finish. simpl. rewrite bool_decide_true by sets.
    simpl. f_equal.
    rewrite !(left_id_L ∅ (∪)). by apply insert_insert_ne.
Qed.

(** * Further properties *)

(** ** Resolution reads the registries and leaves other dictionaries alone *)

Lemma load_from_cache_registries r file_name :
  preserves (registries_are r) (load_from_cache file_name).
Proof. by intros w. Qed.

Lemma save_to_cache_registries r file_name obj :
  preserves (registries_are r) (save_to_cache file_name obj).
Proof. by apply preserves_modify. Qed.

Lemma fresh_id_registries r : preserves (registries_are r) fresh_id.
Proof. by intros w. Qed.

Lemma eval_logger_registries r record :
  preserves (registries_are r) (eval_logger record).
Proof. by apply preserves_modify. Qed.
#[local] Hint Resolve load_from_cache_registries save_to_cache_registries
  fresh_id_registries eval_logger_registries : pres.

Lemma get_task_registries r task_name config :
  preserves (registries_are r) (get_task task_name config).
Proof. unfold get_task, call_factory. preserve. Qed.
#[local] Hint Resolve get_task_registries : pres.

Lemma resolve_task_registries r task_name config registry_dict :
  preserves (registries_are r) (resolve_task task_name config registry_dict).
Proof. unfold resolve_task. preserve. Qed.

Lemma resolve_group_registries r recurse group_name members registry_dict :
  (∀ request config, preserves (registries_are r) (recurse request config)) →
  preserves (registries_are r)
    (resolve_group recurse group_name members registry_dict).
Proof.
  intros Hrec. revert registry_dict.
  induction members as [|task_name rest IH]; intros registry_dict; simpl;
    preserve.
Qed.

Lemma resolve_dict_registries r address config config_dict :
  preserves (registries_are r) (resolve_dict address config config_dict).
Proof.
  unfold resolve_dict, ConfigurableTask. preserve.
Qed.
#[local] Hint Resolve resolve_task_registries resolve_group_registries
  resolve_dict_registries : pres.

Lemma resolve_elements_registries r recurse config task_name_list acc :
  (∀ request config, preserves (registries_are r) (recurse request config)) →
  preserves (registries_are r)
    (resolve_elements recurse config task_name_list acc).
Proof.
  intros Hrec. revert acc.
  induction task_name_list as [|task_element rest IH]; intros acc; simpl;
    [preserve|].
  apply preserves_bind; [|done].
  unfold resolve_element. preserve.
Qed.

Lemma finish_registries r acc : preserves (registries_are r) (finish acc).
Proof. unfold finish. preserve. Qed.

Lemma get_task_dict_registries r depth task_name_list kwargs :
  preserves (registries_are r) (get_task_dict depth task_name_list kwargs).
Proof.
  revert task_name_list kwargs.
  induction depth as [|depth IH]; intros task_name_list kwargs.
  - apply preserves_raise.
  - rewrite get_task_dict_S. apply preserves_bind.
    + by apply resolve_elements_registries.
    + intros acc. apply finish_registries.
Qed.

(** X1: [get_task_dict] only reads the registries: whatever the request, the
    overrides and the nesting, and whether it returns or raises, the world it
    leaves has the same [TASK_REGISTRY], [GROUP_REGISTRY] and [ALL_TASKS] as
    the world it started in. *)
Theorem resolution_keeps_registries (depth : nat)
    (task_name_list : task_request) (kwargs : Config) (w : world) :
  let w' := (get_task_dict depth task_name_list kwargs w).1 in
  TASK_REGISTRY w' = TASK_REGISTRY w ∧
  GROUP_REGISTRY w' = GROUP_REGISTRY w ∧
  ALL_TASKS w' = ALL_TASKS w.
Proof.
  intros w'.
  pose proof (get_task_dict_registries _ depth task_name_list kwargs w
                eq_refl) as H.
  unfold registries_are in H. fold w' in H. by injection H.
Qed.

Lemma world_of_bind_ret {A B} (m : M A) (g : A → B) w :
  ((m ≫= λ a, mret (g a)) w).1 = (m w).1.
Proof. unfold mbind, M_bind. by destruct (m w) as [w' [a|e]]. Qed.

Lemma resolve_dict_frame address config config_dict other w :
  other ≠ address →
  heap (resolve_dict address config config_dict w).1 !! other
    = heap w !! other.
Proof.
  intros Hne. destruct (heap w !! address) as [old|] eqn:Hold.
  - rewrite (resolve_dict_heap _ _ _ _ old) by done.
    by rewrite lookup_insert_ne.
  - unfold resolve_dict. run. by rewrite Hold.
Qed.

Lemma resolve_element_frame recurse config task_element acc address w :
  (∀ h name config,
     preserves (heap_is h) (recurse (ROne (EName name)) config)) →
  task_element ≠ EDict address →
  heap (resolve_element recurse config task_element acc w).1 !! address
    = heap w !! address.
Proof.
  intros Hrec Hne. destruct task_element as [name|a|task_object|].
  - by rewrite (resolve_name_heap (heap w) recurse config name acc
                  (Hrec (heap w)) w eq_refl).
  - simpl. rewrite world_of_bind_ret. apply resolve_dict_frame. congruence.
  - done.
  - done.
Qed.

Lemma resolve_elements_frame recurse config task_name_list acc address w :
  (∀ h name config,
     preserves (heap_is h) (recurse (ROne (EName name)) config)) →
  EDict address ∉ task_name_list →
  heap (resolve_elements recurse config task_name_list acc w).1 !! address
    = heap w !! address.
Proof.
  intros Hrec. revert acc w.
  induction task_name_list as [|e rest IH]; intros acc w Hnot; [done|].
  apply not_elem_of_cons in Hnot as [Hne Hnot].
  rewrite resolve_elements_cons. unfold mbind, M_bind.
  pose proof (resolve_element_frame recurse config e acc address w Hrec
                (not_eq_sym Hne)) as Hstep.
  destruct (resolve_element recurse config e acc w) as [w1 [acc1|err]];
    simpl in Hstep.
  - by rewrite IH.
  - done.
Qed.

(** X2: a dictionary of the caller that is no element of the request is
    never written: whether [get_task_dict] returns or raises, the heap holds
    at its address what it held before. *)
Theorem other_dictionaries_untouched (depth : nat)
    (task_name_list : task_request) (kwargs : Config) (w : world)
    (address : nat) :
  EDict address ∉ as_list task_name_list →
  heap (get_task_dict depth task_name_list kwargs w).1 !! address
    = heap w !! address.
Proof.
  intros Hnot. destruct depth as [|depth]; [done|].
  rewrite get_task_dict_S. unfold mbind, M_bind.
  pose proof (resolve_elements_frame (get_task_dict depth) kwargs
                (as_list task_name_list) (MkResolution ∅ ∅ ∅) address w
                (λ h name config, get_task_dict_name_heap h depth name config)
                Hnot) as Hloop.
  destruct (resolve_elements _ _ _ _ w) as [w1 [acc|e]]; simpl in Hloop;
    [|done].
  pose proof (finish_heap (heap w1) acc w1 eq_refl) as Hf.
  unfold heap_is in Hf. by rewrite Hf.
Qed.

(** ** Names that cannot be resolved *)

(** X3: a group that lists itself as its first member cannot be resolved:
    whatever nesting is allowed, [get_task_dict] on a request that starts
    with the group's name ends in [RecursionError], and the world is as
    before. *)
Theorem self_containing_group_never_resolves (depth : nat) (g : string)
    (rest : list string) (task_name_list : task_request) (kwargs : Config)
    (others : list task_element) (w : world) :
  GROUP_REGISTRY w !! g = Some (g :: rest) →
  as_list task_name_list = EName g :: others →
  get_task_dict depth task_name_list kwargs w = (w, Raise RecursionError).
Proof.
  intros Hg. revert task_name_list kwargs others.
  induction depth as [|depth IH]; intros task_name_list kwargs others Hreq;
    [done|].
  rewrite get_task_dict_S, Hreq, resolve_elements_cons.
  unfold mbind at 1 2, M_bind at 1 2.
  rewrite (resolve_element_group _ _ g (g :: rest)) by done.
  unfold mbind at 1, M_bind at 1. simpl.
  rewrite bool_decide_false by (rewrite lookup_empty; by intros [? ?]).
  unfold mbind at 1 2, M_bind at 1 2.
  by rewrite (IH (ROne (EName g)) ∅ []).
Qed.

Lemma resolve_element_task recurse kwargs name acc w :
  GROUP_REGISTRY w !! name = None →
  resolve_element recurse kwargs (EName name) acc w =
    (registry_dict ←
       resolve_task name kwargs (task_name_from_registry_dict acc);
     mret (MkResolution registry_dict (task_name_from_config_dict acc)
             (task_name_from_object_dict acc))) w.
Proof.
  intros Hg. unfold resolve_element.
  unfold mbind at 1, M_bind at 1, get_world. by rewrite Hg.
Qed.

Lemma bind_raise {A B} (m : M A) (f : A → M B) w w1 e :
  m w = (w1, Raise e) → (m ≫= f) w = (w1, Raise e).
Proof. intros H. unfold mbind, M_bind. by rewrite H. Qed.

(** X4: a request that starts with a name that is neither a group nor a
    registered task, with nothing cached under its key, makes [get_task_dict]
    raise [KeyError("Missing task <name>")]; the two info records are logged,
    no task is built and nothing is cached. *)
Theorem unknown_name_escalates (depth : nat) (name : string)
    (task_name_list : task_request) (kwargs : Config)
    (others : list task_element) (w : world) :
  as_list task_name_list = EName name :: others →
  GROUP_REGISTRY w !! name = None →
  registry_lookup (TASK_REGISTRY w) name = None →
  raw (cache w) !! ("raw-" ++ name) = None →
  get_task_dict (S depth) task_name_list kwargs w =
    (add_log InfoTaskNames (add_log InfoAvailableTasks w),
     Raise (KeyError ("Missing task " ++ name))).
Proof.
  intros Hreq Hg Hreg Hcache.
  rewrite get_task_dict_S, Hreq, resolve_elements_cons.
  apply bind_raise, bind_raise. rewrite resolve_element_task by done.
  apply bind_raise. simpl.
  unfold resolve_task, load_from_cache, get_task.
  rewrite bool_decide_false by (rewrite lookup_empty; by intros [? ?]).
  run. rewrite Hcache. simpl.
  rewrite bool_decide_false by (by intros []). by rewrite Hreg.
Qed.

(** ** The cache and the overrides *)

Lemma get_task_dict_cached depth task_name cached config w :
  GROUP_REGISTRY w !! task_name = None →
  raw (cache w) !! ("raw-" ++ task_name) = Some cached →
  dom cached ≠ ∅ →
  get_task_dict (S depth) (ROne (EName task_name)) config w = (w, Ok cached).
Proof.
  intros Hg Hcache Hdom. rewrite get_task_dict_S.
  unfold as_list. rewrite resolve_elements_cons.
  erewrite bind_ok; last first.
  { erewrite bind_ok; [reflexivity|].
    rewrite resolve_element_task by done.
    erewrite bind_ok; [reflexivity|].
    by apply resolve_task_hit. }
  unfold finish. simpl. rewrite bool_decide_true by sets.
  unfold mret, M_ret. f_equal. f_equal.
  by rewrite !(left_id_L ∅ (∪)), (right_id_L ∅ (∪)).
Qed.

(** X5: once a plain task has been resolved by name, the cache answers for
    it: a second request for the same name returns the instance built by the
    first one, with the overrides of the first request and not those of the
    second, and builds and saves nothing. *)
Theorem cached_task_ignores_later_overrides (depth1 depth2 : nat)
    (task_name : string) (c : TaskFactory) (kwargs1 kwargs2 : Config)
    (w : world) :
  GROUP_REGISTRY w !! task_name = None →
  registry_lookup (TASK_REGISTRY w) task_name = Some (Factory c) →
  raw (cache w) !! ("raw-" ++ task_name) = None →
  let first := get_task_dict (S depth1) (RList [EName task_name]) kwargs1 w in
  first.2 = Ok {[task_name := EInst (new_task c kwargs1 w)]} ∧
  get_task_dict (S depth2) (RList [EName task_name]) kwargs2 first.1
    = first.
Proof.
  intros Hg Hreg Hcache first.
  assert (first = (world_after_task task_name c kwargs1 w,
                   Ok {[task_name := EInst (new_task c kwargs1 w)]}))
    as Hfirst by by apply (get_task_dict_plain_task depth1).
  rewrite Hfirst. split; [done|]. simpl.
  apply (get_task_dict_cached depth2 task_name); [done| |].
  - simpl. apply lookup_insert_eq.
  - rewrite dom_singleton_L. sets.
Qed.

(** ** Inline configs *)

Lemma get_task_name_without_path task_config :
  task_config !! "dataset_path" = None →
  get_task_name_from_config task_config = Raise (KeyError "dataset_path").
Proof.
  intros Hpath. unfold get_task_name_from_config, dict_get.
  rewrite Hpath. by case_bool_decide.
Qed.

Lemma resolve_dict_built address config config_dict name old w :
  heap w !! address = Some old →
  get_task_name_from_config (config ∪ old) = Ok name →
  resolve_dict address config config_dict w =
    (set_next_id (S (next_id w))
       (set_heap (<[address := config ∪ old]> (heap w)) w),
     Ok (<[name := EInst (MkTask (next_id w) "ConfigurableTask" None None
                            (config ∪ old))]> config_dict)).
Proof.
  intros Hold Hname. unfold resolve_dict, ConfigurableTask. run.
  by rewrite Hold, Hname.
Qed.

(** X6: a request that starts with a dictionary of the caller which, with the
    overrides written into it, has no [dataset_path] makes [get_task_dict]
    raise [KeyError("dataset_path")]; the overrides are already written into
    the caller's dictionary, and no task is built. *)
Theorem inline_config_without_path (depth : nat)
    (task_name_list : task_request) (kwargs old : Config) (address : nat)
    (others : list task_element) (w : world) :
  as_list task_name_list = EDict address :: others →
  heap w !! address = Some old →
  (kwargs ∪ old) !! "dataset_path" = None →
  get_task_dict (S depth) task_name_list kwargs w =
    (set_heap (<[address := kwargs ∪ old]> (heap w)) w,
     Raise (KeyError "dataset_path")).
Proof.
  intros Hreq Hold Hpath.
  rewrite get_task_dict_S, Hreq, resolve_elements_cons.
  apply bind_raise, bind_raise. simpl. apply bind_raise.
  unfold resolve_dict. run.
  by rewrite Hold, get_task_name_without_path.
Qed.

(** X7: only names of live task objects are checked against the names
    resolved through the registry. When a plain task is requested by name
    and a dictionary of the caller derives the same name, [get_task_dict]
    returns without error and the result holds, under that name, the task
    built from the dictionary: the registered task's instance is built and
    cached, but dropped from the result. *)
Theorem inline_config_replaces_named_task (depth : nat) (task_name : string)
    (c : TaskFactory) (kwargs old : Config) (address : nat) (w : world) :
  GROUP_REGISTRY w !! task_name = None →
  registry_lookup (TASK_REGISTRY w) task_name = Some (Factory c) →
  raw (cache w) !! ("raw-" ++ task_name) = None →
  heap w !! address = Some old →
  get_task_name_from_config (kwargs ∪ old) = Ok task_name →
  (get_task_dict (S depth) (RList [EName task_name; EDict address]) kwargs
     w).2 =
    Ok {[task_name := EInst (MkTask (S (next_id w)) "ConfigurableTask" None
                               None (kwargs ∪ old))]}.
Proof.
  intros Hg Hreg Hcache Hold Hname.
  rewrite get_task_dict_S. unfold as_list.
  erewrite bind_ok; last first.
  { rewrite resolve_elements_cons. erewrite bind_ok; last first.
    { rewrite resolve_element_task by done.
      erewrite bind_ok; [reflexivity|].
      apply (resolve_task_miss task_name c); [done|done|].
      rewrite Hcache. simpl. sets. }
    rewrite resolve_elements_cons. erewrite bind_ok; [reflexivity|].
    simpl. erewrite bind_ok; [reflexivity|].
    by apply (resolve_dict_built _ _ _ task_name old). }
  unfold finish. simpl. rewrite bool_decide_true by sets.
  simpl. f_equal. rewrite (left_id_L ∅ (∪)).
  apply map_eq. intros k. destruct (decide (k = task_name)) as [->|Hk].
  - by rewrite lookup_union_l', lookup_insert_eq, lookup_singleton_eq
      by (rewrite lookup_insert_eq; eauto).
  - rewrite lookup_union_r by (by rewrite lookup_insert_ne).
    by rewrite lookup_insert_ne, lookup_singleton_ne.
Qed.

(** ** The name of a live task object *)

(** X8: the name of a live task object. When no slot of [TASK_REGISTRY] is
    the object itself, the name is the object's [EVAL_HARNESS_NAME] if it
    has one and the name of its type otherwise. When a slot is the object
    itself, the name is the key of the first such slot, whatever
    [EVAL_HARNESS_NAME] says. *)
Theorem name_of_live_task (task_object : Task) (w : world) :
  ((∀ name class_, (name, class_) ∈ TASK_REGISTRY w →
                   is_same_object class_ task_object = false) →
   get_task_name_from_object task_object w =
     match EVAL_HARNESS_NAME task_object with
     | Some name => name
     | None => type_name task_object
     end) ∧
  (∀ before name class_ after,
     TASK_REGISTRY w = (before ++ (name, class_) :: after)%list →
     is_same_object class_ task_object = true →
     (∀ name' class', (name', class') ∈ before →
                      is_same_object class' task_object = false) →
     get_task_name_from_object task_object w = name).
Proof.
  unfold get_task_name_from_object. split.
  - intros Hnone. induction (TASK_REGISTRY w) as [|[n cls] r IH]; [done|].
    simpl. rewrite (Hnone n cls) by apply list_elem_of_here.
    apply IH. intros n' cls' Hin. apply (Hnone n' cls').
    by apply list_elem_of_further.
  - intros before name class_ after -> Hsame Hbefore.
    induction before as [|[n cls] before IH]; simpl.
    + by rewrite Hsame.
    + rewrite (Hbefore n cls) by apply list_elem_of_here.
      apply IH. intros n' cls' Hin. apply (Hbefore n' cls').
      by apply list_elem_of_further.
Qed.

(** ** Prompt expansion: failures and names *)

(** X9: what prompt expansion does with a config that has a selector. With
    no [dataset_path] it raises [KeyError("dataset_path")] before the prompt
    subsystem is asked; a failure of the prompt subsystem is passed on; an
    empty prompt list gives an empty list of configs, whatever the [task]
    field holds; and with a prompt list that is not empty, a [task] field
    that is not a string raises [TypeError]. *)
Theorem prompt_expansion_failures (config : Config) (yaml_path : string)
    (use_prompt : value) :
  config !! "use_prompt" = Some use_prompt →
  (config !! "dataset_path" = None →
   check_prompt_config config yaml_path = Raise (KeyError "dataset_path")) ∧
  (∀ dataset_path e,
     config !! "dataset_path" = Some dataset_path →
     load_prompt_list use_prompt dataset_path (config !! "dataset_name")
       yaml_path = Raise e →
     check_prompt_config config yaml_path = Raise e) ∧
  (∀ dataset_path,
     config !! "dataset_path" = Some dataset_path →
     load_prompt_list use_prompt dataset_path (config !! "dataset_name")
       yaml_path = Ok [] →
     check_prompt_config config yaml_path = Ok []) ∧
  (∀ dataset_path prompt_variation rest task,
     config !! "dataset_path" = Some dataset_path →
     load_prompt_list use_prompt dataset_path (config !! "dataset_name")
       yaml_path = Ok (prompt_variation :: rest) →
     config !! "task" = Some task →
     is_str task = false →
     check_prompt_config config yaml_path = Raise TypeError).
Proof.
  intros Hsel. unfold check_prompt_config, dict_get. rewrite Hsel.
  split; [|split; [|split]].
  - by intros ->.
  - intros dataset_path e -> Hload. simpl. by rewrite Hload.
  - intros dataset_path -> Hload. simpl. by rewrite Hload.
  - intros dataset_path prompt_variation rest task -> Hload Htask Hstr.
    simpl. rewrite Hload. simpl.
    unfold variant_config, base_task_name. rewrite Htask.
    by destruct task.
Qed.

Lemma str_contains_app_r sub before s :
  str_contains sub s = true → str_contains sub (before ++ s) = true.
Proof.
  intros Hs. induction before as [|a before IH]; [done|].
  simpl. rewrite IH. apply orb_true_r.
Qed.

(** X10: the names of the variants need not differ. Two variations of the
    prompt list that name a file of the same name in different directories
    give two configs with the same [task], the base name joined with the
    file name. *)
Theorem variant_names_can_coincide (config : Config) (yaml_path : string)
    (use_prompt dataset_path : value) (prompt_list : list string)
    (base dir1 dir2 file : string) (i j : nat) :
  config !! "use_prompt" = Some use_prompt →
  config !! "dataset_path" = Some dataset_path →
  load_prompt_list use_prompt dataset_path (config !! "dataset_name")
    yaml_path = Ok prompt_list →
  base_task_name config = Ok base →
  str_contains "/" file = false →
  str_contains ".yaml" file = true →
  prompt_list !! i = Some (dir1 ++ "/" ++ file) →
  prompt_list !! j = Some (dir2 ++ "/" ++ file) →
  ∃ cs ci cj,
    check_prompt_config config yaml_path = Ok cs ∧
    cs !! i = Some ci ∧ cs !! j = Some cj ∧
    ci !! "use_prompt" = Some (VStr (dir1 ++ "/" ++ file)) ∧
    cj !! "use_prompt" = Some (VStr (dir2 ++ "/" ++ file)) ∧
    ci !! "task" = Some (VStr (base ++ "_" ++ file)) ∧
    cj !! "task" = Some (VStr (base ++ "_" ++ file)).
Proof.
  intros Hsel Hpath Hload Hbase Hfile Hyaml Hi Hj.
  destruct (variant_configs_spec config base prompt_list Hbase)
    as (cs & Hcs & _ & Hall).
  destruct (Hall i _ Hi) as (si & Hsi & Hci).
  destruct (Hall j _ Hj) as (sj & Hsj & Hcj).
  rewrite variation_name_file in Hsi, Hsj
    by (done || by apply (str_contains_app_r _ _ ("/" ++ file)),
                         (str_contains_app_r _ "/" file)).
  injection Hsi as <-. injection Hsj as <-.
  exists cs, (variant_of config base (dir1 ++ "/" ++ file) file),
    (variant_of config base (dir2 ++ "/" ++ file) file).
  split.
  { unfold check_prompt_config, dict_get. rewrite Hsel, Hpath. simpl.
    by rewrite Hload. }
  unfold variant_of. repeat split; try done; by simplify_map_eq.
Qed.

(** ** What discovery leaves alone *)

Lemma registry_insert_keys name v r :
  registry_keys (registry_insert name v r) =
    if bool_decide (name ∈ registry_keys r) then registry_keys r
    else (registry_keys r ++ [name])%list.
Proof.
  unfold registry_keys. induction r as [|[k v'] r IH]; [done|].
  csimpl. destruct (decide (k = name)) as [->|Hne].
  - rewrite !bool_decide_true; [done|apply list_elem_of_here|done].
  - rewrite (bool_decide_false (k = name)) by done. csimpl. rewrite IH.
    destruct (decide (name ∈ r.*1)) as [Hin|Hin].
    + rewrite !bool_decide_true; [done| |done].
      by apply list_elem_of_further.
    + rewrite !bool_decide_false; [done| |done].
      intros [?|?]%elem_of_cons; congruence.
Qed.

Lemma registry_insert_NoDup name v r :
  NoDup (registry_keys r) → NoDup (registry_keys (registry_insert name v r)).
Proof.
  intros Hr. rewrite registry_insert_keys. case_bool_decide as Hin; [done|].
  apply NoDup_app. split; [done|]. split.
  - intros x Hx Hx'. apply list_elem_of_singleton in Hx'. by subst.
  - apply NoDup_singleton.
Qed.

Lemma register_task_tidy c h l u name factory :
  preserves (tidy c h l u) (register_task name factory).
Proof.
  apply preserves_modify. intros w (? & ? & ? & Hr).
  repeat split; try done. simpl. intros Hu. by apply registry_insert_NoDup, Hr.
Qed.

Lemma register_group_tidy c h l u name factory :
  preserves (tidy c h l u) (register_group name factory).
Proof.
  unfold register_group. preserve.
  apply preserves_modify. intros w (? & ? & ? & Hr). by case_match.
Qed.

Lemma fresh_id_tidy c h l u : preserves (tidy c h l u) fresh_id.
Proof. by intros w. Qed.
#[local] Hint Resolve register_task_tidy register_group_tidy fresh_id_tidy
  : pres.

Lemma register_groups_tidy c h l u config task SubClass :
  preserves (tidy c h l u) (register_groups config task SubClass).
Proof. unfold register_groups. preserve. Qed.
#[local] Hint Resolve register_groups_tidy : pres.

Lemma new_class_tidy c h l u name CONFIG :
  preserves (tidy c h l u) (new_class name CONFIG).
Proof. unfold new_class. preserve. Qed.
#[local] Hint Resolve new_class_tidy : pres.

Lemma register_configurable_task_tidy c h l u config :
  preserves (tidy c h l u) (register_configurable_task config).
Proof. unfold register_configurable_task. preserve. Qed.
#[local] Hint Resolve register_configurable_task_tidy : pres.

Lemma register_group_member_tidy c h l u group yaml_path member :
  preserves (tidy c h l u) (register_group_member group yaml_path member).
Proof. unfold register_group_member. preserve. Qed.

Lemma link_member_tidy c h l u group task :
  preserves (tidy c h l u) (link_member group task).
Proof.
  unfold link_member. preserve.
  all: apply preserves_modify; by intros w (? & ? & ? & ?).
Qed.
#[local] Hint Resolve register_group_member_tidy link_member_tidy : pres.

Lemma register_configurable_group_tidy c h l u config yaml_path :
  preserves (tidy c h l u) (register_configurable_group config yaml_path).
Proof. unfold register_configurable_group. preserve. Qed.
#[local] Hint Resolve register_configurable_group_tidy : pres.

Lemma load_definition_tidy c h l u register_task yaml_path :
  preserves (tidy c h l u) (load_definition register_task yaml_path).
Proof. unfold load_definition. preserve. Qed.

(** One file: the world is tidy again but for the log, which gets at most one
    record. *)
Lemma include_yaml_log c h u register_task yaml_path import_fail w :
  stored c h u w →
  ∃ w' import_fail' records,
    include_yaml register_task yaml_path import_fail w
      = (w', Ok import_fail') ∧
    stored c h u w' ∧
    log w' = (log w ++ records)%list ∧
    Forall file_record records ∧
    import_fail' = import_fail || existsb is_debug_record records.
Proof.
  intros (Hc & Hh & Hr).
  pose proof (load_definition_tidy c h (log w) u register_task yaml_path w)
    as Hload.
  unfold include_yaml.
  destruct (load_definition register_task yaml_path w) as [w' [[]|e]];
    destruct Hload as (Hc' & Hh' & Hl & Hr'); try done; simpl in *.
  - exists w', import_fail, [].
    rewrite (right_id_L [] (++)%list), orb_false_r. by repeat split.
  - destruct (is_import_error e) eqn:He.
    + exists (add_log (DebugNotAdded yaml_path e) w'), true,
        [DebugNotAdded yaml_path e]. simpl.
      rewrite Hl, orb_true_r. repeat split; try done.
      by apply Forall_singleton.
    + exists (add_log (WarningUnexpected yaml_path e) w'), import_fail,
        [WarningUnexpected yaml_path e]. simpl.
      rewrite Hl, orb_false_r. repeat split; try done.
      by apply Forall_singleton.
Qed.

Lemma walk_files_log c h u register_task root file_list import_fail w :
  stored c h u w →
  ∃ w' import_fail' records,
    walk_files register_task root file_list import_fail w
      = (w', Ok import_fail') ∧
    stored c h u w' ∧
    log w' = (log w ++ records)%list ∧
    Forall file_record records ∧
    import_fail' = import_fail || existsb is_debug_record records.
Proof.
  revert import_fail w.
  induction file_list as [|f rest IH]; intros import_fail w Hw.
  - exists w, import_fail, []. simpl.
    by rewrite (right_id_L [] (++)%list), orb_false_r.
  - simpl. unfold mbind, M_bind. destruct (endswith f ".yaml").
    + destruct (include_yaml_log c h u register_task (path_join root f)
                  import_fail w Hw) as (w1 & b1 & r1 & -> & Hw1 & Hl1 & Hf1 & ->).
      destruct (IH (import_fail || existsb is_debug_record r1) w1 Hw1)
        as (w2 & b2 & r2 & -> & Hw2 & Hl2 & Hf2 & ->).
      exists w2, (import_fail || existsb is_debug_record r1
                  || existsb is_debug_record r2), (r1 ++ r2)%list.
      repeat split; try apply Hw2.
      * by rewrite Hl2, Hl1, (assoc_L (++)%list).
      * by apply Forall_app.
      * by rewrite existsb_app, orb_assoc.
    + apply (IH import_fail w Hw).
Qed.

Lemma walk_dirs_log c h u register_task walk_list import_fail w :
  stored c h u w →
  ∃ w' import_fail' records,
    walk_dirs register_task walk_list import_fail w = (w', Ok import_fail') ∧
    stored c h u w' ∧
    log w' = (log w ++ records)%list ∧
    Forall file_record records ∧
    import_fail' = import_fail || existsb is_debug_record records.
Proof.
  revert import_fail w.
  induction walk_list as [|[[root subdirs] file_list] rest IH];
    intros import_fail w Hw.
  - exists w, import_fail, []. simpl.
    by rewrite (right_id_L [] (++)%list), orb_false_r.
  - simpl. unfold mbind, M_bind.
    destruct (walk_files_log c h u register_task root file_list import_fail w
                Hw) as (w1 & b1 & r1 & -> & Hw1 & Hl1 & Hf1 & ->).
    destruct (IH (import_fail || existsb is_debug_record r1) w1 Hw1)
      as (w2 & b2 & r2 & -> & Hw2 & Hl2 & Hf2 & ->).
    exists w2, (import_fail || existsb is_debug_record r1
                || existsb is_debug_record r2), (r1 ++ r2)%list.
    repeat split; try apply Hw2.
    + by rewrite Hl2, Hl1, (assoc_L (++)%list).
    + by apply Forall_app.
    + by rewrite existsb_app, orb_assoc.
Qed.

Lemma include_task_folder_log c h u task_dir register_task w :
  stored c h u w →
  ∃ w' records,
    include_task_folder task_dir register_task w = (w', Ok 0) ∧
    stored c h u w' ∧
    Forall file_record records ∧
    log w' =
      (log w ++ records ++
       if existsb is_debug_record records then [WarningMissingDependencies]
       else [])%list.
Proof.
  intros Hw. unfold include_task_folder, mbind, M_bind.
  destruct (walk_dirs_log c h u register_task (os_walk task_dir) false w Hw)
    as (w1 & b1 & records & -> & Hw1 & Hl1 & Hf1 & ->).
  simpl. destruct (existsb is_debug_record records) eqn:Hd.
  - exists (add_log WarningMissingDependencies w1), records.
    rewrite Hd. repeat split; try apply Hw1; try done.
    simpl. by rewrite Hl1, (assoc_L (++)%list).
  - exists w1, records. rewrite Hd.
    repeat split; try apply Hw1; try done.
    by rewrite Hl1, (right_id_L [] (++)%list).
Qed.

(** The run over a list of definition files writes one record per failure
    and leaves the cache and the caller's dictionaries alone. *)
Lemma run_definitions_log register_task paths : ∀ w,
  let run := run_definitions register_task paths w in
  cache run.1 = cache w ∧ heap run.1 = heap w ∧
  log run.1 =
    (log w ++
     ((λ failure, failure_record failure.1 failure.2) <$> run.2))%list ∧
  run.2.*1 `sublist_of` paths.
Proof.
  induction paths as [|yaml_path rest IH]; intros w; simpl.
  { rewrite (right_id_L [] (++)%list). by repeat split. }
  pose proof (load_definition_tidy (cache w) (heap w) (log w) false
                register_task yaml_path w) as Hload.
  destruct (load_definition register_task yaml_path w) as [w1 [[]|e]];
    destruct Hload as (Hc & Hh & Hl & _); try done; simpl in *.
  - destruct (IH w1) as (Hc1 & Hh1 & Hl1 & Hs1).
    rewrite Hc1, Hh1, Hl1, Hc, Hh, Hl. repeat split.
    by apply sublist_cons.
  - destruct (IH (add_log (failure_record yaml_path e) w1))
      as (Hc1 & Hh1 & Hl1 & Hs1).
    rewrite Hc1, Hh1, Hl1. simpl. rewrite Hc, Hh, Hl.
    rewrite <-(assoc_L (++)%list). repeat split.
    by apply sublist_skip.
Qed.

(** X11: what one walk writes to the log. Take the definition files of the
    tree in the order of the walk, each in the world the file before it
    left, and let [failed] be those whose definition raised, with the
    exception of each. The walk appends to the log exactly one record for
    each of them, in this order (a debug record for an import error, a
    warning for any other exception), and nothing for the other files;
    after these it appends the warning about missing dependencies exactly
    when one of the exceptions is an import error. The cache and the
    caller's dictionaries are left as they were. *)
Theorem walk_log (task_dir : string) (register_task : bool) (w : world) :
  let paths := definition_paths (os_walk task_dir) in
  let failed := (run_definitions register_task paths w).2 in
  ∃ w',
    include_task_folder task_dir register_task w = (w', Ok 0) ∧
    cache w' = cache w ∧ heap w' = heap w ∧
    failed.*1 `sublist_of` paths ∧
    log w' =
      (log w ++
       ((λ failure, failure_record failure.1 failure.2) <$> failed) ++
       if failed_imports failed then [WarningMissingDependencies]
       else [])%list.
Proof.
  intros paths failed. rewrite include_task_folder_run.
  destruct (run_definitions_log register_task paths w)
    as (Hc & Hh & Hl & Hs).
  subst failed. fold paths. simpl in *.
  eexists. split; [reflexivity|].
  destruct (failed_imports _); simpl; rewrite Hc, Hh, Hl.
  - by rewrite (assoc_L (++)%list).
  - by rewrite (right_id_L [] (++)%list).
Qed.

Lemma no_yaml_files (file_list : list string) :
  (∀ f, f ∈ file_list → endswith f ".yaml" = false) →
  filter (λ f, endswith f ".yaml" = true) file_list = [].
Proof.
  induction file_list as [|f rest IH]; intros Hall; [done|].
  rewrite filter_cons, decide_False.
  - apply IH. intros f' Hf'. apply Hall. by apply list_elem_of_further.
  - rewrite (Hall f) by apply list_elem_of_here. done.
Qed.

(** X12: files that the walk passes over. The walk over the files of a
    directory is the walk over those whose name ends in [".yaml"]; a
    definition that loads and has no [task] field changes nothing and is not
    logged; and over a tree without any file named [*.yaml] the whole walk
    returns at once, in the world it started in. *)
Theorem files_without_effect (register_task : bool) :
  (∀ root file_list import_fail w,
     walk_files register_task root file_list import_fail w =
     walk_files register_task root
       (filter (λ f, endswith f ".yaml" = true) file_list) import_fail w) ∧
  (∀ yaml_path config import_fail w,
     load_yaml_config yaml_path None = Ok config →
     config !! "task" = None →
     include_yaml register_task yaml_path import_fail w
       = (w, Ok import_fail)) ∧
  (∀ task_dir w,
     (∀ root subdirs file_list f,
        (root, subdirs, file_list) ∈ os_walk task_dir → f ∈ file_list →
        endswith f ".yaml" = false) →
     include_task_folder task_dir register_task w = (w, Ok 0)).
Proof.
  assert (∀ root file_list import_fail w,
            walk_files register_task root file_list import_fail w =
            walk_files register_task root
              (filter (λ f, endswith f ".yaml" = true) file_list)
              import_fail w) as Hfilter.
  { intros root file_list. induction file_list as [|f rest IH];
      intros import_fail w; [done|].
    rewrite filter_cons. simpl. destruct (endswith f ".yaml") eqn:Hf.
    - rewrite decide_True by done. simpl. rewrite Hf.
      unfold mbind, M_bind.
      destruct (include_yaml _ _ _ w) as [w' [b|e]]; [by rewrite IH|done].
    - rewrite decide_False by done. apply IH. }
  split; [exact Hfilter|]. split.
  - intros yaml_path config import_fail w Hload Htask.
    unfold include_yaml, load_definition. run. rewrite Hload.
    by rewrite bool_decide_false by (rewrite Htask; by intros [? ?]).
  - intros task_dir w Hnone. unfold include_task_folder.
    assert (∀ walk_list import_fail,
              (∀ root subdirs file_list f,
                 (root, subdirs, file_list) ∈ walk_list → f ∈ file_list →
                 endswith f ".yaml" = false) →
              walk_dirs register_task walk_list import_fail w
                = (w, Ok import_fail)) as Hdirs.
    { intros walk_list.
      induction walk_list as [|[[root subdirs] file_list] rest IH];
        intros import_fail Hall; [done|].
      simpl. unfold mbind, M_bind. rewrite Hfilter.
      replace (filter (λ f, endswith f ".yaml" = true) file_list)
        with (@nil string).
      - simpl. apply IH. intros root' subdirs' file_list' f Hin.
        apply (Hall root' subdirs' file_list' f).
        by apply list_elem_of_further.
      - symmetry. apply no_yaml_files. intros f Hf.
        apply (Hall root subdirs file_list f); [apply list_elem_of_here|done]. }
    unfold mbind, M_bind. by rewrite Hdirs.
Qed.

(** ** [include_path] and the cache *)

Lemma assoc_bind_ok {A B} (m1 m2 : M A) (m3 : M B) w w2 a :
  (m1;; m2) w = (w2, Ok a) → (m1;; m2;; m3) w = m3 w2.
Proof.
  unfold mbind, M_bind. intros H.
  destruct (m1 w) as [w1 [a1|e1]]; [|done].
  by destruct (m2 w1) as [w2' [a2|e2]]; simplify_eq.
Qed.

Lemma two_passes_stored c h u task_dir w :
  stored c h u w →
  ∃ w2,
    (include_task_folder task_dir true;; include_task_folder task_dir false) w
      = (w2, Ok 0) ∧
    stored c h u w2.
Proof.
  intros Hw.
  destruct (include_task_folder_log c h u task_dir true w Hw)
    as (w1 & r1 & Hrun1 & Hw1 & _).
  destruct (include_task_folder_log c h u task_dir false w1 Hw1)
    as (w2 & r2 & Hrun2 & Hw2 & _).
  exists w2. split; [|done]. by rewrite (bind_ok _ _ w w1 0).
Qed.

Lemma include_path_walks task_dir use_cache rewrite_cache w :
  rewrite_cache || negb (caches_exist w) = true →
  include_path task_dir use_cache rewrite_cache w =
    (include_task_folder task_dir true;;
     include_task_folder task_dir false;;
     if use_cache then save_registries_to_cache else mret tt) w.
Proof.
  intros Hwalk. unfold include_path. run.
  destruct rewrite_cache, (caches_exist w), use_cache; done.
Qed.

Lemma include_path_restores task_dir use_cache w :
  caches_exist w = true →
  include_path task_dir use_cache false w = restore_registries w.
Proof. intros Hexist. unfold include_path. run. by rewrite Hexist. Qed.

(** X13: when [include_path] writes the cache. With [use_cache] on and the
    walk run (that is, [rewrite_cache] on or one of the three cached
    registries empty), the cache ends with the three registries of the final
    world in their slots and the slots of the tasks as they were: the test
    [not caches_exist or rewrite_cache] before the save always holds there.
    In every other case the cache is left as it was. *)
Theorem include_path_cache (task_dir : string)
    (use_cache rewrite_cache : bool) (w : world) :
  let w' := (include_path task_dir use_cache rewrite_cache w).1 in
  cache w' =
    if use_cache && (rewrite_cache || negb (caches_exist w))
    then MkCache (Some (TASK_REGISTRY w')) (Some (GROUP_REGISTRY w'))
           (Some (ALL_TASKS w')) (raw (cache w))
    else cache w.
Proof.
  intros w'. destruct (rewrite_cache || negb (caches_exist w)) eqn:Hwalk.
  - unfold w'. rewrite include_path_walks by done.
    destruct (two_passes_stored (cache w) (heap w) false task_dir w)
      as (w2 & Hrun & Hc & _); [done|].
    rewrite (assoc_bind_ok _ _ _ w w2 0 Hrun).
    destruct use_cache; simpl; [|done]. by rewrite Hc.
  - rewrite andb_false_r. unfold w'.
    apply orb_false_iff in Hwalk as [-> Hexist].
    apply negb_false_iff in Hexist.
    by rewrite include_path_restores.
Qed.

Lemma registry_insert_fresh name v r :
  name ∉ registry_keys r → registry_insert name v r = (r ++ [(name, v)])%list.
Proof.
  unfold registry_keys. induction r as [|[k v'] r IH]; [done|].
  csimpl. intros [Hne Hnot]%not_elem_of_cons.
  rewrite bool_decide_false by done. by rewrite IH.
Qed.

Lemma registry_restore r cached :
  NoDup (registry_keys (r ++ cached)%list) →
  foldl (λ r kv, registry_insert kv.1 kv.2 r) r cached = (r ++ cached)%list.
Proof.
  revert r. induction cached as [|[k v] cached IH]; intros r Hnd.
  - by rewrite (right_id_L [] (++)%list).
  - simpl. rewrite registry_insert_fresh.
    + rewrite IH; rewrite <-(assoc_L (++)%list); done.
    + unfold registry_keys in *. rewrite fmap_app in Hnd.
      apply NoDup_app in Hnd as (_ & Hdisj & _).
      intros Hin. apply (Hdisj k Hin). csimpl. apply list_elem_of_here.
Qed.

(** X14: saving and restoring the registries. Let a run of [include_path]
    with [use_cache] on walk the directory, from a world where no name has
    two slots in [TASK_REGISTRY], and leave none of the three registries
    empty. A later run without [rewrite_cache], started with empty registries
    and the cache the first run left, walks nothing (it logs nothing and
    makes no class) and ends with the three registries of the first run. *)
Theorem cache_round_trip (task_dir : string) (rewrite_cache use_cache : bool)
    (w : world) (h : gmap nat Config) (n : nat) (l : list log_record) :
  NoDup (registry_keys (TASK_REGISTRY w)) →
  rewrite_cache || negb (caches_exist w) = true →
  let w1 := (include_path task_dir true rewrite_cache w).1 in
  TASK_REGISTRY w1 ≠ [] →
  GROUP_REGISTRY w1 ≠ ∅ →
  ALL_TASKS w1 ≠ ∅ →
  let w2 := (include_path task_dir use_cache false
               (MkWorld [] ∅ ∅ (cache w1) h n l)).1 in
  TASK_REGISTRY w2 = TASK_REGISTRY w1 ∧
  GROUP_REGISTRY w2 = GROUP_REGISTRY w1 ∧
  ALL_TASKS w2 = ALL_TASKS w1 ∧
  log w2 = l ∧ next_id w2 = n.
Proof.
  intros Hnd Hwalk w1.
  destruct (two_passes_stored (cache w) (heap w) true task_dir w)
    as (wb & Hrun & Hc & _ & Hnd2); [done|].
  assert (w1 = (save_registries_to_cache wb).1) as Hw1.
  { unfold w1. rewrite include_path_walks by done.
    by rewrite (assoc_bind_ok _ _ _ w wb 0 Hrun). }
  clearbody w1. subst w1. simpl. intros Htr Hgr Hat.
  set (w0 := MkWorld [] ∅ ∅
               (MkCache (Some (TASK_REGISTRY wb)) (Some (GROUP_REGISTRY wb))
                  (Some (ALL_TASKS wb)) (raw (cache wb))) h n l).
  assert (caches_exist w0 = true) as Hexist.
  { unfold caches_exist, cached_task_registry, cached_group_registry,
      cached_all_tasks. simpl.
    rewrite !bool_decide_true; [done..| |].
    - by intros ?%dom_empty_inv_L.
    - by destruct (TASK_REGISTRY wb). }
  rewrite include_path_restores by done. simpl.
  unfold cached_task_registry, cached_group_registry, cached_all_tasks.
  simpl. rewrite registry_restore by (by apply Hnd2).
  by rewrite !(right_id_L ∅ (∪)).
Qed.

Lemma registry_restore_is_Some name r cached :
  is_Some (registry_lookup r name) →
  is_Some (registry_lookup
             (foldl (λ r kv, registry_insert kv.1 kv.2 r) r cached) name).
Proof.
  revert r. induction cached as [|[k v] cached IH]; intros r Hr; [done|].
  simpl. by apply IH, registry_insert_is_Some.
Qed.

(** X15: [include_path] never forgets a task: a name that has a slot in
    [TASK_REGISTRY] and is in [ALL_TASKS] before the call still has both
    after it, whether the registries are restored from the cache or the
    directory is walked, and whatever fails on the way. *)
Theorem include_path_keeps_tasks (task_dir : string)
    (use_cache rewrite_cache : bool) (t : string) (w : world) :
  task_known t w →
  task_known t (include_path task_dir use_cache rewrite_cache w).1.
Proof.
  revert w.
  change (preserves (task_known t)
            (include_path task_dir use_cache rewrite_cache)).
  unfold include_path. preserve.
  apply preserves_modify. intros w [Hr Ha]. split; simpl.
  - by apply registry_restore_is_Some.
  - sets.
Qed.

(** ** Group definitions *)

Lemma linked_names_ext w w1 names :
  TASK_REGISTRY w1 = TASK_REGISTRY w →
  (∀ x, x ∈ names → GROUP_REGISTRY w1 !! x = GROUP_REGISTRY w !! x) →
  linked_names w1 names = linked_names w names.
Proof.
  intros Hr. unfold linked_names.
  induction names as [|x rest IH]; intros Hg; [done|].
  rewrite !filter_cons, IH
    by (intros y Hy; apply Hg; by apply list_elem_of_further).
  rewrite Hr, (Hg x) by apply list_elem_of_here. done.
Qed.

Lemma link_member_step g task w :
  link_member (VStr g) task w =
    if bool_decide (is_Some (registry_lookup (TASK_REGISTRY w) task) ∨
                    is_Some (GROUP_REGISTRY w !! task))
    then
      match GROUP_REGISTRY w !! g with
      | Some members =>
          (set_GROUP_REGISTRY
             (<[g := (members ++ [task])%list]> (GROUP_REGISTRY w)) w, Ok tt)
      | None =>
          (set_ALL_TASKS ({[g]} ∪ ALL_TASKS w)
             (set_GROUP_REGISTRY (<[g := [task]]> (GROUP_REGISTRY w)) w),
           Ok tt)
      end
    else (w, Ok tt).
Proof.
  unfold link_member. run. rewrite bool_decide_or.
  destruct (_ || _); [|done]. by case_match.
Qed.

Lemma link_loop g names w :
  g ∉ names →
  ∃ w',
    for_each (link_member (VStr g)) names w = (w', Ok tt) ∧
    TASK_REGISTRY w' = TASK_REGISTRY w ∧
    GROUP_REGISTRY w' =
      match linked_names w names with
      | [] => GROUP_REGISTRY w
      | linked =>
          <[g := (default [] (GROUP_REGISTRY w !! g) ++ linked)%list]>
            (GROUP_REGISTRY w)
      end ∧
    ALL_TASKS w' =
      match linked_names w names, GROUP_REGISTRY w !! g with
      | _ :: _, None => {[g]} ∪ ALL_TASKS w
      | _, _ => ALL_TASKS w
      end.
Proof.
  revert w. induction names as [|task rest IH]; intros w Hnot.
  { exists w. by repeat split. }
  apply not_elem_of_cons in Hnot as [Hne Hnot].
  simpl. unfold mbind, M_bind. rewrite link_member_step.
  unfold linked_names at 1 2. rewrite filter_cons.
  fold (linked_names w rest).
  destruct (decide (is_Some (registry_lookup (TASK_REGISTRY w) task) ∨
                    is_Some (GROUP_REGISTRY w !! task))) as [Hk|Hk].
  - rewrite bool_decide_true by done.
    destruct (GROUP_REGISTRY w !! g) as [members|] eqn:Hg.
    + set (w1 := set_GROUP_REGISTRY _ w).
      destruct (IH w1 Hnot) as (w' & Hrun & Htr & Hgr & Hat).
      exists w'. split; [done|]. split; [by rewrite Htr|].
      assert (linked_names w1 rest = linked_names w rest) as Hl.
      { apply linked_names_ext; [done|]. intros x Hx. simpl.
        apply lookup_insert_ne. by intros ->. }
      rewrite Hl in Hgr, Hat. simpl in Hgr, Hat.
      rewrite lookup_insert_eq in Hgr, Hat. simpl in Hgr.
      split.
      * rewrite Hgr. destruct (linked_names w rest); simpl.
        -- done.
        -- by rewrite insert_insert_eq, <-(assoc_L (++)%list).
      * rewrite Hat. by destruct (linked_names w rest).
    + set (w1 := set_ALL_TASKS _ _).
      destruct (IH w1 Hnot) as (w' & Hrun & Htr & Hgr & Hat).
      exists w'. split; [done|]. split; [by rewrite Htr|].
      assert (linked_names w1 rest = linked_names w rest) as Hl.
      { apply linked_names_ext; [done|]. intros x Hx. simpl.
        apply lookup_insert_ne. by intros ->. }
      rewrite Hl in Hgr, Hat. simpl in Hgr, Hat.
      rewrite lookup_insert_eq in Hgr, Hat. simpl in Hgr.
      split.
      * rewrite Hgr. destruct (linked_names w rest); simpl.
        -- done.
        -- by rewrite insert_insert_eq.
      * rewrite Hat. by destruct (linked_names w rest).
  - rewrite bool_decide_false by done.
    destruct (IH w Hnot) as (w' & Hrun & Htr & Hgr & Hat).
    exists w'. by repeat split.
Qed.

Lemma member_names_strings (names : list string) :
  member_names (VStr <$> names) = names ∧
  filter (λ task, is_str task = false) (VStr <$> names) = [].
Proof.
  induction names as [|name rest [IH1 IH2]]; [done|].
  csimpl. rewrite IH1. split; [done|].
  by rewrite filter_cons, decide_False.
Qed.

(** X16: a group definition whose members are all names. The names are
    matched against [ALL_TASKS]; when the group's own name is not among the
    matches, the definition succeeds and appends to the group's member list,
    in the order of the matches, exactly the matches that have a slot in
    [TASK_REGISTRY] or [GROUP_REGISTRY] (a new group starts from the empty
    list and its name joins [ALL_TASKS]); with no such match nothing
    changes. [TASK_REGISTRY] is left as it was. *)
Theorem group_of_names (config : Config) (yaml_path g : string)
    (patterns : list string) (w : world) :
  config !! "group" = Some (VStr g) →
  config !! "task" = Some (VList (VStr <$> patterns)) →
  g ∉ pattern_match patterns (ALL_TASKS w) →
  let linked := linked_names w (pattern_match patterns (ALL_TASKS w)) in
  ∃ w',
    register_configurable_group config yaml_path w = (w', Ok 0) ∧
    TASK_REGISTRY w' = TASK_REGISTRY w ∧
    GROUP_REGISTRY w' =
      match linked with
      | [] => GROUP_REGISTRY w
      | _ => <[g := (default [] (GROUP_REGISTRY w !! g) ++ linked)%list]>
               (GROUP_REGISTRY w)
      end ∧
    ALL_TASKS w' =
      match linked, GROUP_REGISTRY w !! g with
      | _ :: _, None => {[g]} ∪ ALL_TASKS w
      | _, _ => ALL_TASKS w
      end.
Proof.
  intros Hgroup Htask Hnot linked.
  destruct (link_loop g _ w Hnot) as (w' & Hrun & Htr & Hgr & Hat).
  exists w'. subst linked. split; [|split; [done|split]].
  - unfold register_configurable_group, dict_get. rewrite Hgroup, Htask. run.
    destruct (member_names_strings patterns) as [-> ->]. simpl.
    by rewrite Hrun.
  - rewrite Hgr. by destruct (linked_names _ _).
  - rewrite Hat. by destruct (linked_names _ _).
Qed.

Lemma register_group_member_no_base group yaml_path fields override w :
  (dict_of_fields fields !! "task" = None ∨
   ∃ t, dict_of_fields fields !! "task" = Some (VStr t) ∧ t ∉ ALL_TASKS w) →
  load_yaml_config yaml_path (Some (dict_of_fields fields)) = Ok override →
  register_group_member group yaml_path (VDict fields) w =
    match check_prompt_config (<["group" := group]> override)
            (dirname yaml_path) with
    | Ok var_configs =>
        for_each (λ config, register_configurable_task config;; mret tt)
          var_configs w
    | Raise e => (w, Raise e)
    end.
Proof.
  intros Hno Hload. unfold register_group_member. run.
  assert (member_base group (dict_of_fields fields) w = Ok (∅, ∅)) as ->.
  { unfold member_base. destruct Hno as [->|(t & -> & Hnot)]; [done|].
    simpl. by rewrite bool_decide_false. }
  rewrite Hload. unfold merged_config.
  rewrite (left_id_L ∅ (∪)), (right_id_L ∅ (∪)).
  by destruct (check_prompt_config _ _).
Qed.

Lemma register_group_member_no_slot group yaml_path fields t w :
  dict_of_fields fields !! "task" = Some (VStr t) →
  t ∈ ALL_TASKS w →
  registry_lookup (TASK_REGISTRY w) t = None →
  register_group_member group yaml_path (VDict fields) w
    = (w, Raise (KeyError t)).
Proof.
  intros Ht Hin Hreg. unfold register_group_member, member_base. run.
  rewrite Ht. simpl. rewrite bool_decide_true by done. simpl.
  by rewrite Hreg.
Qed.

(** X17: an inline member without a merge base. Let [w] be the world in
    which [register_configurable_group] comes to an inline member of the
    definition, after the inline members before it. When the member has no
    [task] field, or names a task that is not in [ALL_TASKS], there is no
    base and no synthesized name: [register_configurable_group] expands
    the member's record with the [group] field forced, registers the
    variants, so that the member goes under the name it gives itself, and
    goes on with the rest of the definition. When the member names a name
    of [ALL_TASKS] that has no slot in [TASK_REGISTRY] (a group),
    [register_configurable_group] fails with [KeyError] of that name in the
    world [w]: nothing is registered for the member, and the members after
    it and the names of the list are not looked at. *)
Theorem inline_member_without_base (config : Config) (group : value)
    (yaml_path : string) (before after : list value)
    (fields : list (string * value)) (w0 w : world) :
  config !! "group" = Some group →
  config !! "task" = Some (VList (before ++ VDict fields :: after)%list) →
  for_each (register_group_member group yaml_path) (inline_members before) w0
    = (w, Ok tt) →
  (∀ override,
     (dict_of_fields fields !! "task" = None ∨
      ∃ t, dict_of_fields fields !! "task" = Some (VStr t) ∧
           t ∉ ALL_TASKS w) →
     load_yaml_config yaml_path (Some (dict_of_fields fields)) = Ok override →
     register_configurable_group config yaml_path w0 =
       match check_prompt_config (<["group" := group]> override)
               (dirname yaml_path) with
       | Ok var_configs =>
           (for_each (λ config, register_configurable_task config;; mret tt)
              var_configs;;
            group_rest group yaml_path (before ++ VDict fields :: after)%list
              after) w
       | Raise e => (w, Raise e)
       end) ∧
  (∀ t,
     dict_of_fields fields !! "task" = Some (VStr t) →
     t ∈ ALL_TASKS w →
     registry_lookup (TASK_REGISTRY w) t = None →
     register_configurable_group config yaml_path w0
       = (w, Raise (KeyError t))).
Proof.
  intros Hgroup Htask Hbefore.
  pose proof (register_configurable_group_at config group yaml_path before
                (VDict fields) after w0 w Hgroup Htask eq_refl Hbefore)
    as Hat.
  split.
  - intros override Hno Hload. rewrite Hat.
    unfold mbind at 1, M_bind at 1.
    rewrite (register_group_member_no_base _ _ _ override) by done.
    by destruct (check_prompt_config _ _).
  - intros t Ht Hin Hreg. rewrite Hat.
    unfold mbind at 1, M_bind at 1.
    by rewrite (register_group_member_no_slot _ _ _ t).
Qed.

(** ** Groups of plain tasks *)

Lemma plain_group_loop depth g w rest : ∀ (d : task_dict) w1,
  (∀ name, name ∈ rest → ∃ c, plain_task w name c) →
  TASK_REGISTRY w1 = TASK_REGISTRY w →
  GROUP_REGISTRY w1 = GROUP_REGISTRY w →
  (∀ name, d !! name = None →
     raw (cache w1) !! ("raw-" ++ name) = raw (cache w) !! ("raw-" ++ name)) →
  (∀ name e, d !! name = Some e → ∃ c, plain_task w name c ∧ member_entry g c e) →
  ∃ w2 d2,
    resolve_group (get_task_dict (S depth)) g rest d w1 = (w2, Ok d2) ∧
    dom d2 = dom d ∪ list_to_set rest ∧
    (∀ name e, d2 !! name = Some e →
       ∃ c, plain_task w name c ∧ member_entry g c e).
Proof.
  induction rest as [|name rest IH]; intros d w1 Hplain Htr Hgr Hraw Hd.
  { exists w1, d. split; [done|]. split; [|done].
    by rewrite list_to_set_nil, (right_id_L ∅ (∪)). }
  destruct (d !! name) as [e|] eqn:Hname.
  - rewrite resolve_group_skip by done.
    destruct (IH d w1) as (w2 & d2 & Hrun & Hdom & Hd2); try done.
    { intros x Hx. apply Hplain. by apply list_elem_of_further. }
    exists w2, d2. split; [done|]. split; [|done].
    rewrite Hdom. apply elem_of_dom_2 in Hname.
    rewrite list_to_set_cons, (assoc_L (∪)), (comm_L (∪) (dom d) {[name]}).
    rewrite (subseteq_union_1_L {[name]} (dom d)); [done|].
    by apply singleton_subseteq_l.
  - destruct (Hplain name) as (c & Hg & Hc & Hcache);
      [apply list_elem_of_here|].
    rewrite (resolve_group_member _ g name rest d w1
               (world_after_task name c ∅ w1)
               {[name := EInst (new_task c ∅ w1)]}); [|done|]; last first.
    { apply get_task_dict_plain_task.
      - by rewrite Hgr.
      - by rewrite Htr.
      - by rewrite Hraw. }
    rewrite lookup_singleton_eq.
    destruct (IH (<[name := EPair g (EInst (new_task c ∅ w1))]> d)
                (world_after_task name c ∅ w1))
      as (w2 & d2 & Hrun & Hdom & Hd2); try done.
    + intros x Hx. apply Hplain. by apply list_elem_of_further.
    + intros x Hx. apply lookup_insert_None in Hx as [Hx Hne]. simpl.
      rewrite lookup_insert_ne; [by apply Hraw|].
      intros Heq. by apply Hne, raw_key_inj.
    + intros x e Hx. apply lookup_insert_Some in Hx as [[<- <-]|[_ Hx]].
      * exists c. split; [done|]. by exists (next_id w1).
      * by apply Hd.
    + exists w2, d2. split; [done|]. split; [|done].
      rewrite Hdom, dom_insert_L, list_to_set_cons.
      by rewrite (comm_L (∪) {[name]} (dom d)), (assoc_L (∪)).
Qed.

(** X18: a group of plain tasks. When every member of the group [g] is a
    registered task with a class in its slot, is no group itself and has
    nothing cached, [get_task_dict([g], **kwargs)] succeeds; the names of the
    mapping it returns are exactly the members (a member listed twice
    counts once), and every value pairs [g] with an instance of the
    member's class made with an empty config: the overrides given to the
    call do not reach the members of a group. *)
Theorem group_of_plain_tasks (depth : nat) (g : string)
    (members : list string) (kwargs : Config) (w : world) :
  GROUP_REGISTRY w !! g = Some members →
  (∀ name, name ∈ members → ∃ c, plain_task w name c) →
  ∃ w' d,
    get_task_dict (S (S depth)) (RList [EName g]) kwargs w = (w', Ok d) ∧
    dom d = list_to_set members ∧
    (∀ name e, d !! name = Some e →
       ∃ c, plain_task w name c ∧ member_entry g c e).
Proof.
  intros Hg Hplain.
  destruct (plain_group_loop depth g w members ∅ w)
    as (w2 & d2 & Hrun & Hdom & Hd2); try done.
  exists w2, d2. split; [|split; [|done]].
  - rewrite get_task_dict_S. unfold as_list.
    erewrite bind_ok; last first.
    { rewrite resolve_elements_cons. erewrite bind_ok; [reflexivity|].
      rewrite (resolve_element_group _ _ g members) by done.
      erewrite bind_ok; [reflexivity|]. exact Hrun. }
    unfold finish. simpl. rewrite bool_decide_true by sets.
    simpl. by rewrite !(left_id_L ∅ (∪)).
  - by rewrite Hdom, dom_empty_L, (left_id_L ∅ (∪)).
Qed.

(** ** Elements that are no names *)

Lemma resolve_elements_app recurse config l1 l2 acc w :
  resolve_elements recurse config (l1 ++ l2)%list acc w =
    (acc ← resolve_elements recurse config l1 acc;
     resolve_elements recurse config l2 acc) w.
Proof.
  revert acc w. induction l1 as [|task_element l1 IH]; intros acc w; [done|].
  simpl. unfold mbind, M_bind in *.
  destruct (resolve_element _ _ _ _ _) as [w1 [acc1|e]]; [|done].
  apply IH.
Qed.

Lemma resolve_elements_objects recurse config objects : ∀ acc w,
  resolve_elements recurse config (ETask <$> objects) acc w =
    (w, Ok (MkResolution (task_name_from_registry_dict acc)
              (task_name_from_config_dict acc)
              (foldl (λ d task_object,
                        <[get_task_name_from_object task_object w :=
                            EInst task_object]> d)
                 (task_name_from_object_dict acc) objects))).
Proof.
  induction objects as [|task_object objects IH]; intros acc w.
  { by destruct acc. }
  csimpl. unfold mbind, M_bind. simpl. run. by rewrite IH.
Qed.

(** X19: an element of the request that is neither a name, nor a
    dictionary, nor a task object is passed over: it raises nothing and
    the call behaves as if the element were not in the list. *)
Theorem other_elements_are_skipped (depth : nat)
    (before after : list task_element) (kwargs : Config) (w : world) :
  get_task_dict depth (RList (before ++ EOther :: after)%list) kwargs w =
    get_task_dict depth (RList (before ++ after)%list) kwargs w.
Proof.
  destruct depth as [|depth]; [done|].
  rewrite !get_task_dict_S. unfold as_list, mbind, M_bind.
  by rewrite !resolve_elements_app.
Qed.

(** X20: a request made of live task objects only. The call returns, for
    every list of objects, the mapping built from left to right that puts
    each object under the name found for it (a later object replaces an
    earlier one of the same name); it never fails, builds no task and
    leaves the world as it was, registered names among the objects'
    names included. *)
Theorem objects_only_request (depth : nat) (objects : list Task)
    (kwargs : Config) (w : world) :
  get_task_dict (S depth) (RList (ETask <$> objects)) kwargs w =
    (w, Ok (object_dict (λ task_object,
                           get_task_name_from_object task_object w)
              objects)).
Proof.
  rewrite get_task_dict_S. unfold as_list, mbind, M_bind.
  rewrite resolve_elements_objects. unfold finish. simpl.
  rewrite bool_decide_true by (rewrite dom_empty_L; apply disjoint_empty_l).
  unfold mret, M_ret, object_dict.
  by rewrite !(right_id_L ∅ (∪)).
Qed.

End tasks.


(** * Examples on the small directory *)

(** The string functions on a path and a file name. *)
Example py_split_path :
  py_split slash "prompts/en/qa.yaml" = ["prompts"; "en"; "qa.yaml"] ∧
  py_split slash "plain" = ["plain"] ∧
  py_split slash "dir/" = ["dir"; ""].
Proof. repeat split; reflexivity. Qed.

Example endswith_yaml :
  endswith "alpha.yaml" ".yaml" = true ∧
  endswith "notes.txt" ".yaml" = false ∧
  endswith "yaml" ".yaml" = false ∧
  str_contains ".yaml" "prompts/qa.yaml:v1" = true ∧
  str_contains ".yaml" "plain" = false.
Proof. repeat split; reflexivity. Qed.

(** Discovery on the small directory, from the empty world: the group file
    comes first in the walk, and still [mygroup] gets its two members; the
    two files that fail to load are logged in each pass. *)
Example discovery_of_the_directory :
  let w := (include_path ex_repr ex_prompt_list ex_yaml ex_pattern_match
              ex_walk ex_join ex_dirname "tasks" false false empty_world).1 in
  TASK_REGISTRY w = [("alpha", Factory (ex_class 0 "alpha"));
                     ("beta", Factory (ex_class 1 "beta"))] ∧
  GROUP_REGISTRY w = {["mygroup" := ["alpha"; "beta"]]} ∧
  ALL_TASKS w = {["alpha"; "beta"; "mygroup"]} ∧
  log w = [WarningUnexpected "tasks/broken.yaml" (OtherException 1);
           DebugNotAdded "tasks/needs_module.yaml" ModuleNotFoundError;
           WarningMissingDependencies;
           WarningUnexpected "tasks/broken.yaml" (OtherException 1);
           DebugNotAdded "tasks/needs_module.yaml" ModuleNotFoundError;
           WarningMissingDependencies].
Proof. repeat split; vm_compute; reflexivity. Qed.

(** C1, counterexample: [mygroup] is the group of the registered tasks
    [alpha] and [beta], and [beta] is also the name of a group that holds
    [alpha]. The result maps [alpha] to a pair with the group [beta], not
    with [mygroup], and [beta] to [(mygroup, None)]. *)
Lemma nested_group_overwrites_member :
  GROUP_REGISTRY nested_world !! "mygroup" = Some ["alpha"; "beta"] ∧
  registry_lookup (TASK_REGISTRY nested_world) "alpha"
    = Some (Factory (ex_class 0 "alpha")) ∧
  registry_lookup (TASK_REGISTRY nested_world) "beta"
    = Some (Factory (ex_class 1 "beta")) ∧
  (get_task_dict ex_repr 3 (RList [EName "mygroup"]) ∅ nested_world).2 =
    Ok {[ "alpha" := EPair "beta" (EInst (ex_task 2 "alpha"));
          "beta" := EPair "mygroup" ENone ]}.
Proof. repeat split; vm_compute; reflexivity. Qed.

Lemma group_resolution_witness :
  (get_task_dict ex_repr 2 (RList [EName "mygroup"]) ∅ group_world).2 =
    Ok {[ "alpha" := EPair "mygroup" (EInst (ex_task 2 "alpha"));
          "beta" := EPair "mygroup" (EInst (ex_task 3 "beta")) ]}.
Proof.
  destruct (group_resolution ex_repr) as (_ & _ & _ & H).
  apply (H 0 "mygroup" "alpha" "beta" (ex_class 0 "alpha")
           (ex_class 1 "beta") ∅ group_world);
    [discriminate | reflexivity..].
Defined.

(** C2, counterexample: the directory [tasks] defines the plain task
    [alpha], but with the three registries in the cache and [rewrite_cache]
    off, [include_path] restores the cached registries and runs no pass:
    [alpha] is not registered, no class is made and nothing is logged for
    the two files of the directory that fail to load. And when the two
    passes do run, over the directory [odd], the plain task whose name has a
    NUL character is not registered, as no class can be made for it, and of
    the two variants of the definition with a prompt selector only the
    first is: its registration ends in the collision error, and the
    second variant is not reached. *)
Lemma cached_registries_skip_both_passes :
  (defines_task ex_repr ex_prompt_list ex_yaml ex_join ex_dirname
     (ex_walk "tasks") "alpha" ∧
   let w' := (include_path ex_repr ex_prompt_list ex_yaml ex_pattern_match
                ex_walk ex_join ex_dirname "tasks" false false cached_world).1
   in registry_lookup (TASK_REGISTRY w') "alpha" = None ∧
      TASK_REGISTRY w' = [("gamma", Factory (ex_class 0 "gamma"))] ∧
      next_id w' = 0 ∧ log w' = []) ∧
  (let w' := (include_path ex_repr ex_prompt_list ex_yaml_odd
                ex_pattern_match ex_walk_odd ex_join ex_dirname "odd" false
                false empty_world).1
   in ex_yaml_odd "odd/nul.yaml" None = Ok {["task" := VStr ex_nul_name]} ∧
      match check_prompt_config ex_repr ex_prompt_list
              (<["group" := VStr "qa_qa.yaml"]> ex_prompted) "tasks" with
      | Ok cs => (λ c : Config, c !! "task") <$> cs
      | Raise _ => []
      end = [Some (VStr "qa_qa.yaml"); Some (VStr "qa_plain")] ∧
      registry_keys (TASK_REGISTRY w') = ["qa_qa.yaml"] ∧
      log w' =
        [WarningUnexpected "odd/nul.yaml"
           (ValueError "type name must not contain null characters");
         WarningUnexpected "odd/grouped.yaml" GroupTaskNameCollisionError]).
Proof.
  split; [split|].
  - exists "tasks", [], ex_files, "alpha.yaml".
    split; [apply list_elem_of_here|].
    split; [do 4 apply list_elem_of_further; apply list_elem_of_here|].
    split; [reflexivity|].
    exists {["task" := VStr "alpha"]}, "alpha", [], {["task" := VStr "alpha"]},
      [].
    repeat split; try (vm_compute; reflexivity). constructor.
  - repeat split; vm_compute; reflexivity.
  - repeat split; vm_compute; reflexivity.
Qed.

Lemma two_pass_discovery_witness :
  task_known "alpha"
    (include_task_folder ex_repr ex_prompt_list ex_yaml ex_pattern_match
       ex_walk ex_join ex_dirname "tasks" true empty_world).1 ∧
  task_known "qa_plain"
    (include_task_folder ex_repr ex_prompt_list ex_yaml_odd ex_pattern_match
       ex_walk_qa ex_join ex_dirname "odd" true empty_world).1.
Proof.
  split.
  - destruct (two_pass_discovery ex_repr ex_prompt_list ex_yaml
                ex_pattern_match ex_walk ex_join ex_dirname "tasks" false
                false empty_world) as (_ & _ & H); [reflexivity|].
    apply (H "alpha").
    exists "tasks", [], ex_files, "alpha.yaml".
    split; [apply list_elem_of_here|].
    split; [do 4 apply list_elem_of_further; apply list_elem_of_here|].
    split; [reflexivity|].
    exists {["task" := VStr "alpha"]}, "alpha", [], {["task" := VStr "alpha"]},
      [].
    repeat split; try (vm_compute; reflexivity). constructor.
  - destruct (two_pass_discovery ex_repr ex_prompt_list ex_yaml_odd
                ex_pattern_match ex_walk_qa ex_join ex_dirname "odd" false
                false empty_world) as (_ & _ & H); [reflexivity|].
    apply (H "qa_plain").
    exists "odd", [], ["qa.yaml"], "qa.yaml".
    split; [apply list_elem_of_here|].
    split; [apply list_elem_of_here|].
    split; [reflexivity|].
    exists ex_prompted, "qa",
      [variant_of ex_prompted "qa" "prompts/qa.yaml" "qa.yaml"],
      (variant_of ex_prompted "qa" "plain" "plain"), [].
    repeat split; try (vm_compute; reflexivity).
    constructor; [|constructor]. intros w. reflexivity.
Defined.

Lemma group_member_merge_witness :
  ∃ w',
    register_configurable_group ex_repr ex_prompt_list ex_yaml
      ex_pattern_match ex_dirname ex_group_config "tasks/mygroup.yaml"
      base_world = (w', Ok 0) ∧
    registry_lookup (TASK_REGISTRY w') "mygroup_alpha" =
      Some (Factory
              (MkFactory 1 "mygroup_alphaConfigurableTask"
                 (MkTaskConfig
                    {["task" := VStr "mygroup_alpha";
                      "group" := VStr "mygroup";
                      "num_fewshot" := VOther 5;
                      "dataset_path" := VStr "squad"]}))) ∧
    GROUP_REGISTRY w' !! "mygroup" = Some ["mygroup_alpha"; "alpha"].
Proof.
  destruct (group_member_merge ex_repr ex_prompt_list ex_yaml
              ex_pattern_match ex_dirname ex_group_config (VStr "mygroup")
              "tasks/mygroup.yaml" [VStr "alpha"] []
              [("task", VStr "alpha"); ("num_fewshot", VOther 5)] "alpha"
              (Factory ex_base_class) ex_base_class
              (dict_of_fields
                 [("task", VStr "alpha"); ("num_fewshot", VOther 5)])
              base_world base_world)
    as (_ & _ & _ & _ & _ & H); [reflexivity..|].
  eexists. split.
  - etransitivity; [exact H|]. vm_compute. reflexivity.
  - split; vm_compute; reflexivity.
Defined.

(** C4, counterexample: the variation [prompts/qa.yaml] is backed by a file;
    the variant of the task [qa] is named [qa_qa.yaml], with the extension,
    and not [qa_qa]. *)
Lemma file_variation_keeps_extension :
  match check_prompt_config ex_repr ex_prompt_list ex_prompted "tasks" with
  | Ok cs => (λ c : Config, (c !! "use_prompt", c !! "task")) <$> cs
  | Raise _ => []
  end =
  [(Some (VStr "prompts/qa.yaml"), Some (VStr "qa_qa.yaml"));
   (Some (VStr "plain"), Some (VStr "qa_plain"))].
Proof. vm_compute. reflexivity. Qed.

Lemma prompt_expansion_witness :
  ∃ cs,
    check_prompt_config ex_repr ex_prompt_list ex_prompted "tasks" = Ok cs ∧
    length cs = 2.
Proof.
  destruct (prompt_expansion ex_repr ex_prompt_list ex_prompted "tasks")
    as [_ H].
  destruct (H (VStr "promptsource:*") (VStr "squad")
              ["prompts/qa.yaml"; "plain"] "qa")
    as (cs & Hcs & Hlen & _); [reflexivity..|].
  exists cs. split; [exact Hcs | exact Hlen].
Defined.

(** C5, the code at the failing input: [alpha] and [beta] are requested by
    name with nothing cached. Under the key [raw-beta] the cache then holds
    the whole mapping built so far, with the entry of [alpha] next to the
    entry of [beta], and not the single entry of [beta]; a later request for
    [beta] alone hits this slot and returns [alpha] as well. *)
Theorem raw_slot_holds_accumulated_mapping :
  let w' := (get_task_dict ex_repr 1 (RList [EName "alpha"; EName "beta"]) ∅
               group_world).1 in
  raw (cache w') !! "raw-alpha" = Some {["alpha" := EInst (ex_task 2 "alpha")]} ∧
  raw (cache w') !! "raw-beta" =
    Some {[ "alpha" := EInst (ex_task 2 "alpha");
            "beta" := EInst (ex_task 3 "beta") ]} ∧
  get_task_dict ex_repr 1 (RList [EName "beta"]) ∅ w' =
    (w', Ok {[ "alpha" := EInst (ex_task 2 "alpha");
               "beta" := EInst (ex_task 3 "beta") ]}).
Proof. repeat split; vm_compute; reflexivity. Qed.

(** C6, counterexample: the [task] and [group] fields hold the same string,
    which has a NUL character. The call fails when the class is made, with
    another error than the collision error, and nothing is registered. *)
Lemma nul_name_fails_before_collision_check :
  let config : Config :=
    {["task" := VStr ex_nul_name; "group" := VStr ex_nul_name]} in
  config !! "task" = config !! "group" ∧
  register_configurable_task ex_repr config empty_world =
    (empty_world,
     Raise (ValueError "type name must not contain null characters")).
Proof. split; vm_compute; reflexivity. Qed.

Lemma collision_always_fails_witness :
  (register_configurable_task ex_repr
     {["task" := VStr "lambada"; "group" := VStr "lambada"]} empty_world).2
    = Raise (ValueError "task and group name cannot be the same").
Proof.
  destruct (collision_always_fails ex_repr
              {["task" := VStr "lambada"; "group" := VStr "lambada"]}
              "lambada" empty_world) as [H _]; [reflexivity..|].
  apply H. reflexivity.
Defined.

Lemma collision_leaves_task_registered_witness :
  let config : Config :=
    {["task" := VStr "lambada"; "group" := VStr "lambada"]} in
  registry_lookup (TASK_REGISTRY empty_world) "lambada" = None ∧
  ∃ w',
    register_configurable_task ex_repr config empty_world
      = (w', Raise GroupTaskNameCollisionError) ∧
    registry_lookup (TASK_REGISTRY w') "lambada" =
      Some (Factory (MkFactory 0 "lambadaConfigurableTask"
                       (MkTaskConfig config))) ∧
    "lambada" ∈ ALL_TASKS w'.
Proof.
  intros config. split; [reflexivity|].
  destruct (collision_leaves_task_registered ex_repr config empty_world)
    as [H1 H2].
  pose proof (H2 "lambada" eq_refl eq_refl eq_refl) as Hrun.
  exists (registered_world "lambada" config empty_world).
  split; [exact Hrun|].
  destruct (H1 _ Hrun) as (s & Hs & Hreg & Hall).
  assert (s = "lambada") as -> by (vm_compute in Hs; congruence).
  split; [exact Hreg | exact Hall].
Defined.

Lemma resolution_disjointness_witness :
  (get_task_dict ex_repr 1 (RList [EName "alpha"; ETask live_alpha]) ∅
     group_world).2 = Raise AssertionError.
Proof.
  destruct (resolution_disjointness ex_repr 0
              (RList [EName "alpha"; ETask live_alpha]) ∅ group_world
              (world_after_task "alpha" (ex_class 0 "alpha") ∅ group_world))
    as [_ H].
  rewrite (H (MkResolution {["alpha" := EInst (ex_task 2 "alpha")]} ∅
                {["alpha" := EInst live_alpha]}) "alpha");
    [reflexivity | vm_compute; reflexivity..].
Defined.


Lemma inline_config_mutated_in_place_witness :
  let kwargs : Config := {["num_fewshot" := VOther 5]} in
  let w' := (get_task_dict ex_repr 1 (RList [EDict 7]) kwargs dict_world).1 in
  heap w' !! 7 =
    Some {["dataset_path" := VStr "squad"; "num_fewshot" := VOther 5]}.
Proof.
  intros kwargs w'.
  destruct (inline_config_mutated_in_place ex_repr kwargs) as [_ H].
  rewrite (H 1 (RList [EDict 7]) dict_world w'
             {["squad" := EInst (MkTask 2 "ConfigurableTask" None None
                 {["dataset_path" := VStr "squad";
                   "num_fewshot" := VOther 5]})]}
             7 {["dataset_path" := VStr "squad"; "num_fewshot" := VOther 0]});
    [vm_compute; reflexivity | vm_compute; reflexivity
    | apply list_elem_of_here | reflexivity].
Defined.

(** ** The further properties on the examples *)

Lemma other_dictionaries_untouched_witness :
  heap (get_task_dict ex_repr 1 (RList [EName "alpha"])
          {["num_fewshot" := VOther 5]} dict_world).1 !! 7 =
    Some {["dataset_path" := VStr "squad"; "num_fewshot" := VOther 0]}.
Proof.
  rewrite (other_dictionaries_untouched ex_repr 1 (RList [EName "alpha"])
             {["num_fewshot" := VOther 5]} dict_world 7).
  - reflexivity.
  - intros H. apply list_elem_of_singleton in H. discriminate.
Defined.

Lemma self_containing_group_never_resolves_witness :
  get_task_dict ex_repr 1000 (RList [EName "loop"]) ∅ loop_world
    = (loop_world, Raise RecursionError).
Proof.
  apply (self_containing_group_never_resolves ex_repr 1000 "loop" ["alpha"]
           (RList [EName "loop"]) ∅ []); reflexivity.
Defined.

Lemma unknown_name_escalates_witness :
  get_task_dict ex_repr 1 (RList [EName "gamma"; EName "alpha"]) ∅ group_world
    = (add_log InfoTaskNames (add_log InfoAvailableTasks group_world),
       Raise (KeyError "Missing task gamma")).
Proof.
  apply (unknown_name_escalates ex_repr 0 "gamma"
           (RList [EName "gamma"; EName "alpha"]) ∅ [EName "alpha"]);
    reflexivity.
Defined.

Lemma cached_task_ignores_later_overrides_witness :
  let first :=
    get_task_dict ex_repr 1 (RList [EName "alpha"])
      {["num_fewshot" := VOther 0]} group_world in
  first.2 =
    Ok {["alpha" := EInst (new_task (ex_class 0 "alpha")
                             {["num_fewshot" := VOther 0]} group_world)]} ∧
  get_task_dict ex_repr 1 (RList [EName "alpha"])
    {["num_fewshot" := VOther 5]} first.1 = first.
Proof.
  apply (cached_task_ignores_later_overrides ex_repr 0 0 "alpha"
           (ex_class 0 "alpha")); reflexivity.
Defined.

Lemma inline_config_without_path_witness :
  let kwargs : Config := {["limit" := VOther 1]} in
  get_task_dict ex_repr 1 (RList [EDict 7]) kwargs bare_world =
    (set_heap
       (<[7 := kwargs ∪ {["num_fewshot" := VOther 0]}]> (heap bare_world))
       bare_world,
     Raise (KeyError "dataset_path")).
Proof.
  intros kwargs.
  apply (inline_config_without_path ex_repr 0 (RList [EDict 7]) kwargs
           {["num_fewshot" := VOther 0]} 7 []);
    [reflexivity | reflexivity | vm_compute; reflexivity].
Defined.

Lemma inline_config_replaces_named_task_witness :
  (get_task_dict ex_repr 1 (RList [EName "squad"; EDict 7]) ∅ squad_world).2 =
    Ok {["squad" := EInst (MkTask 2 "ConfigurableTask" None None
                             (∅ ∪ {["dataset_path" := VStr "squad"]}))]}.
Proof.
  apply (inline_config_replaces_named_task ex_repr 0 "squad"
           (ex_class 0 "squad") ∅ {["dataset_path" := VStr "squad"]} 7
           squad_world);
    [reflexivity | reflexivity | reflexivity | reflexivity
    | vm_compute; reflexivity].
Defined.

Lemma name_of_live_task_witness :
  get_task_name_from_object live_alpha group_world = "alpha" ∧
  get_task_name_from_object (ex_task 1 "beta") group_world = "beta".
Proof.
  split.
  - destruct (name_of_live_task live_alpha group_world) as [H _].
    apply H. intros name class_ Hin.
    apply elem_of_cons in Hin as [Heq|Hin]; [by inversion Heq|].
    apply list_elem_of_singleton in Hin. by inversion Hin.
  - destruct (name_of_live_task (ex_task 1 "beta") group_world) as [_ H].
    apply (H [("alpha", Factory (ex_class 0 "alpha"))] "beta"
             (Factory (ex_class 1 "beta")) []); [reflexivity..|].
    intros name class_ Hin.
    apply list_elem_of_singleton in Hin. by inversion Hin.
Defined.

Lemma prompt_expansion_failures_witness :
  check_prompt_config ex_repr ex_prompt_list
    {["task" := VStr "qa"; "use_prompt" := VStr "promptsource:*"]} "tasks"
    = Raise (KeyError "dataset_path") ∧
  check_prompt_config ex_repr ex_prompt_list
    {["task" := VList []; "use_prompt" := VStr "promptsource:*";
      "dataset_path" := VStr "squad"]} "tasks"
    = Raise TypeError.
Proof.
  split.
  - destruct (prompt_expansion_failures ex_repr ex_prompt_list
                {["task" := VStr "qa"; "use_prompt" := VStr "promptsource:*"]}
                "tasks" (VStr "promptsource:*")) as (H & _);
      [reflexivity|].
    apply H. reflexivity.
  - destruct (prompt_expansion_failures ex_repr ex_prompt_list
                {["task" := VList []; "use_prompt" := VStr "promptsource:*";
                  "dataset_path" := VStr "squad"]}
                "tasks" (VStr "promptsource:*")) as (_ & _ & _ & H);
      [reflexivity|].
    apply (H (VStr "squad") "prompts/qa.yaml" ["plain"] (VList []));
      reflexivity.
Defined.

Lemma variant_names_can_coincide_witness :
  ∃ cs ci cj,
    check_prompt_config ex_repr ex_prompt_files ex_prompted "tasks" = Ok cs ∧
    cs !! 0 = Some ci ∧ cs !! 1 = Some cj ∧
    ci !! "use_prompt" = Some (VStr "en/qa.yaml") ∧
    cj !! "use_prompt" = Some (VStr "fr/qa.yaml") ∧
    ci !! "task" = Some (VStr "qa_qa.yaml") ∧
    cj !! "task" = Some (VStr "qa_qa.yaml").
Proof.
  apply (variant_names_can_coincide ex_repr ex_prompt_files ex_prompted
           "tasks" (VStr "promptsource:*") (VStr "squad")
           ["en/qa.yaml"; "fr/qa.yaml"] "qa" "en" "fr" "qa.yaml" 0 1);
    reflexivity.
Defined.

Lemma files_without_effect_witness :
  include_task_folder ex_repr ex_prompt_list ex_yaml ex_pattern_match
    ex_walk_notes ex_join ex_dirname "tasks" true group_world
    = (group_world, Ok 0).
Proof.
  destruct (files_without_effect ex_repr ex_prompt_list ex_yaml
              ex_pattern_match ex_walk_notes ex_join ex_dirname true)
    as (_ & _ & H).
  apply H. intros root subdirs file_list f Hwalk Hf.
  apply list_elem_of_singleton in Hwalk. inversion Hwalk; subst.
  apply list_elem_of_singleton in Hf. subst. reflexivity.
Defined.

Lemma cache_round_trip_witness :
  let w1 := (include_path ex_repr ex_prompt_list ex_yaml ex_pattern_match
               ex_walk ex_join ex_dirname "tasks" true false empty_world).1 in
  let w2 := (include_path ex_repr ex_prompt_list ex_yaml ex_pattern_match
               ex_walk ex_join ex_dirname "tasks" false false
               (MkWorld [] ∅ ∅ (cache w1) ∅ 0 [])).1 in
  TASK_REGISTRY w2 = TASK_REGISTRY w1 ∧
  GROUP_REGISTRY w2 = GROUP_REGISTRY w1 ∧
  ALL_TASKS w2 = ALL_TASKS w1 ∧
  log w2 = [] ∧ next_id w2 = 0.
Proof.
  apply (cache_round_trip ex_repr ex_prompt_list ex_yaml ex_pattern_match
           ex_walk ex_join ex_dirname "tasks" false false empty_world ∅ 0 []).
  - apply NoDup_nil_2.
  - reflexivity.
  - vm_compute. discriminate.
  - intros H. apply (f_equal (λ m, m !! "mygroup")) in H.
    vm_compute in H. discriminate.
  - intros H. apply (f_equal (λ X, bool_decide ("alpha" ∈ X))) in H.
    vm_compute in H. discriminate.
Defined.

Lemma include_path_keeps_tasks_witness :
  task_known "alpha"
    (include_path ex_repr ex_prompt_list ex_yaml ex_pattern_match
       ex_walk_notes ex_join ex_dirname "tasks" false false group_world).1.
Proof.
  apply (include_path_keeps_tasks ex_repr ex_prompt_list ex_yaml
           ex_pattern_match ex_walk_notes ex_join ex_dirname).
  split.
  - exists (Factory (ex_class 0 "alpha")). reflexivity.
  - apply (bool_decide_unpack _). vm_compute. exact I.
Defined.

Lemma group_of_names_witness :
  ∃ w',
    register_configurable_group ex_repr ex_prompt_list ex_yaml
      ex_pattern_match ex_dirname
      {["group" := VStr "mygroup";
        "task" := VList [VStr "alpha"; VStr "gamma"; VStr "beta"]]}
      "tasks/mygroup.yaml" group_world = (w', Ok 0) ∧
    TASK_REGISTRY w' = TASK_REGISTRY group_world ∧
    GROUP_REGISTRY w' =
      {["mygroup" := ["alpha"; "beta"; "alpha"; "beta"]]} ∧
    ALL_TASKS w' = ALL_TASKS group_world.
Proof.
  destruct (group_of_names ex_repr ex_prompt_list ex_yaml ex_pattern_match
              ex_dirname
              {["group" := VStr "mygroup";
                "task" := VList [VStr "alpha"; VStr "gamma"; VStr "beta"]]}
              "tasks/mygroup.yaml" "mygroup" ["alpha"; "gamma"; "beta"]
              group_world) as (w' & Hrun & Htr & Hgr & Hat).
  - reflexivity.
  - reflexivity.
  - assert (ex_pattern_match ["alpha"; "gamma"; "beta"]
              (ALL_TASKS group_world) = ["alpha"; "beta"]) as ->
      by (vm_compute; reflexivity).
    intros Hin. apply elem_of_cons in Hin as [Heq|Hin]; [discriminate|].
    apply list_elem_of_singleton in Hin. discriminate.
  - exists w'. split; [exact Hrun|]. split; [exact Htr|].
    split; [rewrite Hgr | rewrite Hat]; vm_compute; reflexivity.
Defined.

Lemma inline_member_without_base_witness :
  register_configurable_group ex_repr ex_prompt_list ex_yaml
    ex_pattern_match ex_dirname ex_group_of_group "tasks/others.yaml"
    group_world
    = (group_world, Raise (KeyError "mygroup")).
Proof.
  destruct (inline_member_without_base ex_repr ex_prompt_list ex_yaml
              ex_pattern_match ex_dirname ex_group_of_group (VStr "others")
              "tasks/others.yaml" [VStr "alpha"] []
              [("task", VStr "mygroup"); ("num_fewshot", VOther 5)]
              group_world group_world) as [_ H]; [reflexivity..|].
  apply (H "mygroup"); reflexivity.
Defined.

Lemma group_of_plain_tasks_witness :
  ∃ w' d,
    get_task_dict ex_repr 2 (RList [EName "mygroup"])
      {["num_fewshot" := VOther 5]} group_world = (w', Ok d) ∧
    dom d = list_to_set ["alpha"; "beta"] ∧
    (∀ name e, d !! name = Some e →
       ∃ c, plain_task group_world name c ∧ member_entry "mygroup" c e).
Proof.
  apply (group_of_plain_tasks ex_repr 0 "mygroup" ["alpha"; "beta"]
           {["num_fewshot" := VOther 5]} group_world); [reflexivity|].
  intros name Hin. apply elem_of_cons in Hin as [->|Hin].
  - exists (ex_class 0 "alpha"). repeat split; reflexivity.
  - apply list_elem_of_singleton in Hin as ->.
    exists (ex_class 1 "beta"). repeat split; reflexivity.
Defined.
